(** * Theremin: the synthesis and render-loop engine of [Theramin.cpp]

    A shallow embedding of the per-sample signal path, the render loop and
    the control-input handler, followed by the properties the specification
    states about them.

    Numeric reading.  The program computes on IEEE binary32 [float]s.  The
    specification states its formulas and bounds over exact quantities
    (one-pole recurrences, the rational soft saturation, intervals), so a
    [float] is read here as the real number it denotes and every float
    operation as the exact operation on reals: rounding, infinities and NaN
    are outside the model.  Where a property turns on the rounding itself,
    the operation is given a second time on binary32, in [Binary32], and the
    property is settled there.  Integer data ([int], [UINT32], [uint32_t],
    [size_t]) is modelled on [Z] and [nat] with the wrap-around written out,
    and stays executable. *)

From Stdlib Require Import Reals Lra Lia ZArith Floats.SpecFloat.
From stdpp Require Import base option list.

#[local] Open Scope R_scope.

(** ** Constants (lines 28-31, 152-153) *)

Definition kTwoPi : R := 6.28318530717958647692.
Definition kMinHz : R := 100.
Definition kMaxHz : R := 2000.

Definition hzSmoothCoeff : R := 0.05.
Definition gainSmoothCoeff : R := 0.075.

(** ** Data model (lines 33-50) *)

(** The parameter bus: five independently loaded cells. *)
Record SynthParams : Type := mkParams {
  targetHz : R;
  targetGain : R;
  mode : Z;
  mute : bool;
  vibratoDepth : R
}.

Definition default_params : SynthParams :=
  mkParams 440 0 1 false 0.

(** The runtime state owned by the render thread. *)
Record SynthState : Type := mkState {
  phaseA : R;
  phaseB : R;
  smoothHz : R;
  smoothGain : R;
  vibratoPhase : R;
  delayL : R;
  delayR : R;
  delayBufL : list R;
  delayBufR : list R;
  delayIndex : nat
}.

Definition default_state : SynthState :=
  mkState 0 0 440 0 0 0 0 [] [] 0.

(** ** Utilities (lines 52-102) *)

Definition fast_tanhf (x : R) : R :=
  let x2 := x * x in
  x * (27 + x2) / (27 + 9 * x2).

Definition soft_saw (phase : R) : R :=
  let s := (phase / kTwoPi) * 2 - 1 in
  fast_tanhf (0.8 * s).

Definition soft_tri (phase : R) : R :=
  let tri := 2 * Rabs ((phase / kTwoPi) - 0.5) - 1 in
  fast_tanhf (0.8 * tri).

Definition sine (phase : R) : R := sin phase.

(** The generator's [static uint32_t seed]: one LCG step modulo 2^32. *)
Definition initial_seed : Z := 0x12345678.

Definition lcg_next (seed : Z) : Z :=
  ((1664525 * seed + 1013904223) mod 2 ^ 32)%Z.

(** [white_noise] returns the sample and the advanced seed. *)
Definition white_noise (seed : Z) : R * Z :=
  let seed' := lcg_next seed in
  let u := IZR (Z.land seed' 0x00FFFFFF) / 16777216 in
  (2 * u - 1, seed').

Definition smooth_step (current target coeff : R) : R :=
  current + coeff * (target - current).

(** [n] successive samples of a smoother whose target stays [target]. *)
Definition smooth_run (target coeff : R) (n : nat) (c : R) : R :=
  Nat.iter n (fun x => smooth_step x target coeff) c.

Definition map_x_to_hz (x width : Z) : R :=
  if (width <=? 0)%Z then 440
  else
    let nx := Rmax 0 (Rmin 1 (IZR x / IZR width)) in
    let ratio := kMaxHz / kMinHz in
    kMinHz * Rpower ratio nx.

Definition map_y_to_gain (y height : Z) : R :=
  if (height <=? 0)%Z then 0
  else
    let ny := Rmax 0 (Rmin 1 (IZR y / IZR height)) in
    1 - ny.

(** ** The per-sample pipeline (lines 176-248) *)

(** [phase += inc; if (phase >= kTwoPi) phase -= kTwoPi;] *)
Definition advance_phase (phase inc : R) : R :=
  let phase' := phase + inc in
  if Rge_dec phase' kTwoPi then phase' - kTwoPi else phase'.

(** The [switch (mode)] of lines 204-227, with the two base tones it reads.
    Only [case 3] calls [white_noise], so only there the seed advances. *)
Definition mode_engine (mode : Z) (phaseA phaseB : R) (seed : Z) : R * Z :=
  let aSine := sine phaseA in
  let bSine := sine phaseB in
  match mode with
  | 1%Z => (aSine, seed)
  | 2%Z =>
      let ring := aSine * bSine in
      (0.70 * aSine + 0.45 * ring, seed)
  | 3%Z =>
      let '(w, seed') := white_noise seed in
      let n := 0.25 * w in
      let pre := 0.85 * aSine + n in
      (fast_tanhf pre, seed')
  | 4%Z =>
      let s := soft_saw phaseA in
      let t := soft_tri phaseA in
      (0.6 * s + 0.4 * t, seed)
  | _ => (aSine, seed)
  end.

(** The local variables of one loop body, lines 177-232: this part touches
    no vector and cannot fail. *)
Record Voice : Type := mkVoice {
  v_smoothHz : R;
  v_smoothGain : R;
  v_vibratoPhase : R;
  v_vibrato : R;
  v_hz : R;
  v_incA : R;
  v_incB : R;
  v_phaseA : R;
  v_phaseB : R;
  v_sample : R;
  v_seed : Z;
  v_gain : R;
  v_dryL : R;
  v_dryR : R
}.

Definition synth_voice (dt : R) (p : SynthParams) (s : SynthState)
    (seed : Z) : Voice :=
  let tgtHz := targetHz p in
  let tgtGain := targetGain p in
  let mute := mute p in
  let mode := mode p in
  let vibAmt := vibratoDepth p in
  let smoothHz' := smooth_step (smoothHz s) tgtHz hzSmoothCoeff in
  let smoothGain' := smooth_step (smoothGain s) tgtGain gainSmoothCoeff in
  let vibratoPhase' := advance_phase (vibratoPhase s) (kTwoPi * 5.5 * dt) in
  let vibrato :=
    if Rgt_dec vibAmt 0 then 0.01 * vibAmt * sin vibratoPhase' else 0 in
  let hz := smoothHz' * (1 + vibrato) in
  let incA := kTwoPi * hz * dt in
  let incB := kTwoPi * (hz * 1.997) * dt in
  let phaseA' := advance_phase (phaseA s) incA in
  let phaseB' := advance_phase (phaseB s) incB in
  let '(sample, seed') := mode_engine mode phaseA' phaseB' seed in
  let gain := if mute then 0 else smoothGain' in
  let dryL := sample * gain in
  let dryR := sample * gain in
  mkVoice smoothHz' smoothGain' vibratoPhase' vibrato hz incA incB
          phaseA' phaseB' sample seed' gain dryL dryR.

(** Lines 234-243.  [operator[]] outside the vector and [%] by a zero size
    are undefined behaviour: the stage then has no result. *)
Record Decorrelated : Type := mkDecor {
  d_bufL : list R;
  d_bufR : list R;
  d_index : nat;
  d_outL : R;
  d_outR : R
}.

Definition decorrelate (bufL bufR : list R) (di : nat) (dryL dryR : R)
    : option Decorrelated :=
  dL ← bufL !! di;
  dR ← bufR !! di;
  let bufL' := <[di := 0.85 * dL + 0.15 * dryL]> bufL in
  let bufR' := <[di := 0.85 * dR + 0.15 * dryR]> bufR in
  if decide (length bufL' = 0%nat) then None
  else
    let di' := ((di + 1) mod length bufL')%nat in
    let outL := 0.85 * dryL + 0.15 * dR in
    let outR := 0.85 * dryR + 0.15 * dL in
    Some (mkDecor bufL' bufR' di' outL outR).

(** What the render thread mutates: [gSynth] and the noise generator's seed. *)
Record RenderState : Type := mkRender {
  gSynth : SynthState;
  noise_seed : Z
}.

(** One iteration of the [for] loop: the stored state and the frame. *)
Definition sample_step (dt : R) (p : SynthParams) (w : RenderState)
    : option (RenderState * (R * R)) :=
  let s := gSynth w in
  let v := synth_voice dt p s (noise_seed w) in
  d ← decorrelate (delayBufL s) (delayBufR s) (delayIndex s)
        (v_dryL v) (v_dryR v);
  Some (mkRender
          (mkState (v_phaseA v) (v_phaseB v) (v_smoothHz v) (v_smoothGain v)
                   (v_vibratoPhase v) (delayL s) (delayR s)
                   (d_bufL d) (d_bufR d) (d_index d))
          (v_seed v),
        (d_outL d, d_outR d)).

(** The [for] loop over [framesToWrite] frames.  The control thread may
    store between any two samples, so each sample has its own snapshot of
    the five loads. *)
Fixpoint render_frames (dt : R) (ps : list SynthParams) (w : RenderState)
    : option (RenderState * list (R * R)) :=
  match ps with
  | [] => Some (w, [])
  | p :: ps' =>
      '(w', frame) ← sample_step dt p w;
      '(w'', frames) ← render_frames dt ps' w';
      Some (w'', frame :: frames)
  end.

(** [out[i * channels + 0] = outL; if (channels > 1) out[i * channels + 1]
    = outR;] on the device's memory, a store outside of which is undefined.
    The index is computed on 32-bit unsigned integers. *)
Definition store (out : list R) (i : nat) (x : R) : option (list R) :=
  if decide (i < length out)%nat then Some (<[i := x]> out) else None.

Definition out_index (i : nat) (channels : nat) (k : Z) : nat :=
  Z.to_nat ((Z.of_nat i * Z.of_nat channels + k) mod 2 ^ 32).

Fixpoint write_interleaved (channels : nat) (i : nat) (frames : list (R * R))
    (out : list R) : option (list R) :=
  match frames with
  | [] => Some out
  | (outL, outR) :: frames' =>
      out1 ← store out (out_index i channels 0) outL;
      out2 ← (if decide (1 < channels)%nat
              then store out1 (out_index i channels 1) outR
              else Some out1);
      write_interleaved channels (S i) frames' out2
  end.

(** ** The render thread (lines 135-258) *)

(** [size_t(sampleRate * 0.012f)]: the product truncated to an integer;
    on exact quantities that is [nSamplesPerSec * 12 / 1000] rounded down. *)
Definition delaySamples (nSamplesPerSec : Z) : nat :=
  Z.to_nat (nSamplesPerSec * 12 / 1000).

(** Lines 146-149: the only place the delay lines are sized. *)
Definition init_delay (nSamplesPerSec : Z) (s : SynthState) : SynthState :=
  mkState (phaseA s) (phaseB s) (smoothHz s) (smoothGain s) (vibratoPhase s)
          (delayL s) (delayR s)
          (replicate (delaySamples nSamplesPerSec) 0)
          (replicate (delaySamples nSamplesPerSec) 0)
          0.

Inductive WaitResult : Type := WAIT_OBJECT_0 | WAIT_TIMEOUT | WAIT_FAILED.

(** What one pass of the [while] loop observes from outside the thread:
    the running flag, the wait, the device calls and the parameter loads. *)
Record Wake : Type := mkWake {
  wk_running : bool;             (* gWASAPI.running.load() *)
  wk_wait : WaitResult;          (* WaitForSingleObject *)
  wk_padding : option Z;         (* GetCurrentPadding, None when FAILED *)
  wk_buffer : option (list R);   (* GetBuffer, None when FAILED or null *)
  wk_params : nat -> SynthParams;(* the loads of sample i *)
  wk_release : bool              (* ReleaseBuffer succeeded *)
}.

Record Device : Type := mkDevice {
  bufferFrames : Z;
  nSamplesPerSec : Z;
  nChannels : nat
}.

Definition sample_dt (dev : Device) : R := 1 / IZR (nSamplesPerSec dev).

(** [UINT32 framesToWrite = gWASAPI.bufferFrames - padding;] *)
Definition framesToWrite (dev : Device) (padding : Z) : Z :=
  ((bufferFrames dev - padding) mod 2 ^ 32)%Z.

Inductive Control : Type := Continue | Break.

(** The body of the [while] loop, lines 160-251, once the flag was seen
    set.  The third component is what was committed to the device. *)
Definition loop_body (dev : Device) (wk : Wake) (w : RenderState)
    : option (Control * RenderState * option (list R)) :=
  match wk_wait wk with
  | WAIT_OBJECT_0 =>
      match wk_padding wk with
      | None => Some (Break, w, None)
      | Some padding =>
          let n := framesToWrite dev padding in
          if (n =? 0)%Z then Some (Continue, w, None)
          else
            match wk_buffer wk with
            | None => Some (Break, w, None)
            | Some out =>
                let ps := map (wk_params wk) (seq 0 (Z.to_nat n)) in
                '(w', frames) ← render_frames (sample_dt dev) ps w;
                out' ← write_interleaved (nChannels dev) 0 frames out;
                if wk_release wk then Some (Continue, w', Some out')
                else Some (Break, w', Some out')
            end
      end
  | _ => Some (Continue, w, None)
  end.

Inductive LoopState : Type := Running | Stopped.

(** The [while] loop over the wakes that happen; with none left the thread
    is still waiting. *)
Fixpoint audio_loop (dev : Device) (wakes : list Wake) (w : RenderState)
    : option (LoopState * RenderState * list (list R)) :=
  match wakes with
  | [] => Some (Running, w, [])
  | wk :: wakes' =>
      if wk_running wk then
        '(c, w', committed) ← loop_body dev wk w;
        let emitted := match committed with Some o => [o] | None => [] end in
        match c with
        | Break => Some (Stopped, w', emitted)
        | Continue =>
            '(st, w'', outs) ← audio_loop dev wakes' w';
            Some (st, w'', emitted ++ outs)
        end
      else Some (Stopped, w, [])
  end.

(** [AudioThreadMain]: size the delay lines, start the stream, loop. *)
Definition AudioThreadMain (dev : Device) (start_ok : bool)
    (wakes : list Wake) (w : RenderState)
    : option (LoopState * RenderState * list (list R)) :=
  let w0 := mkRender (init_delay (nSamplesPerSec dev) (gSynth w))
                     (noise_seed w) in
  if start_ok then audio_loop dev wakes w0 else Some (Stopped, w0, []).

(** ** The control thread (lines 264-311) *)

Record RECT : Type := mkRECT { left : Z; top : Z; right : Z; bottom : Z }.

Inductive Msg : Type :=
  | WM_DESTROY
  | WM_MOUSEMOVE (x y : Z) (rc : RECT) (shift : bool)
  | WM_KEYDOWN (wParam : Z)
  | WM_OTHER.

Definition VK_SPACE : Z := 0x20.
Definition VK_ESCAPE : Z := 0x1B.

(** The shared cells the handler stores to: [gParams] and the running flag. *)
Record Shared : Type := mkShared {
  gParams : SynthParams;
  running : bool
}.

Definition WndProc (msg : Msg) (g : Shared) : Shared :=
  let p := gParams g in
  match msg with
  | WM_DESTROY => mkShared p false
  | WM_MOUSEMOVE x y rc shift =>
      let hz := map_x_to_hz x (right rc - left rc) in
      let gain := map_y_to_gain y (bottom rc - top rc) in
      mkShared (mkParams hz gain (mode p) (mute p)
                         (if shift then 1 else 0))
               (running g)
  | WM_KEYDOWN wParam =>
      if (wParam =? 49)%Z then
        mkShared (mkParams (targetHz p) (targetGain p) 1 (mute p)
                           (vibratoDepth p)) (running g)
      else if (wParam =? 50)%Z then
        mkShared (mkParams (targetHz p) (targetGain p) 2 (mute p)
                           (vibratoDepth p)) (running g)
      else if (wParam =? 51)%Z then
        mkShared (mkParams (targetHz p) (targetGain p) 3 (mute p)
                           (vibratoDepth p)) (running g)
      else if (wParam =? 52)%Z then
        mkShared (mkParams (targetHz p) (targetGain p) 4 (mute p)
                           (vibratoDepth p)) (running g)
      else if (wParam =? VK_SPACE)%Z then
        mkShared (mkParams (targetHz p) (targetGain p) (mode p)
                           (negb (mute p)) (vibratoDepth p)) (running g)
      else if (wParam =? VK_ESCAPE)%Z then
        mkShared p false          (* DestroyWindow sends WM_DESTROY *)
      else g
  | WM_OTHER => g
  end.

Definition message_pump (msgs : list Msg) (g : Shared) : Shared :=
  foldl (fun g m => WndProc m g) g msgs.

(** ** Device setup and teardown (lines 108-120, 318-410)

    The COM interfaces and handles of [WasapiContext] are modelled by
    whether the pointer is non-null; what the operating system answers to
    each call is an input; the calls made are logged in order. *)

Module Wasapi.

Inductive ApiCall : Type :=
  | CoInitializeEx | CoCreateInstance | GetDefaultAudioEndpoint | Activate
  | GetMixFormat | Initialize | GetBufferSize | CreateEventW
  | SetEventHandle | GetService | GetBuffer | ReleaseBuffer | CreateThread
  | WaitForThread | CloseThreadHandle | CloseEventHandle
  | ReleaseRen | ReleaseCli | ReleaseDev | ReleaseEnum
  | CoTaskMemFree | CoUninitialize.

Record WasapiContext : Type := mkContext {
  pEnum : bool;
  pDev : bool;
  pCli : bool;
  pRen : bool;
  hEvent : bool;
  pMixFmt : bool;
  bufferFrames : Z;
  hAudioThread : bool;
  hAvrt : bool;
  running : bool;
  coInit : bool
}.

(** The static initial value of [gWASAPI]. *)
Definition initial_context : WasapiContext :=
  mkContext false false false false false false 0 false false false false.

(** [SafeRelease(&p)]: release a held interface and null the pointer. *)
Definition SafeRelease (call : ApiCall) (p : bool) : bool * list ApiCall :=
  if p then (false, [call]) else (p, []).

(** [ShutdownWASAPI], lines 318-344: the context left and the calls made. *)
Definition ShutdownWASAPI (g : WasapiContext) : WasapiContext * list ApiCall :=
  let '(thread, t1) :=
    if hAudioThread g then (false, [WaitForThread; CloseThreadHandle])
    else (hAudioThread g, []) in
  let '(event, t2) :=
    if hEvent g then (false, [CloseEventHandle]) else (hEvent g, []) in
  let '(ren, t3) := SafeRelease ReleaseRen (pRen g) in
  let '(cli, t4) := SafeRelease ReleaseCli (pCli g) in
  let '(dev, t5) := SafeRelease ReleaseDev (pDev g) in
  let '(enum, t6) := SafeRelease ReleaseEnum (pEnum g) in
  let '(fmt, t7) :=
    if pMixFmt g then (false, [CoTaskMemFree]) else (pMixFmt g, []) in
  let '(co, t8) :=
    if coInit g then (false, [CoUninitialize]) else (coInit g, []) in
  (mkContext enum dev cli ren event fmt (bufferFrames g) thread (hAvrt g)
             false co,
   t1 ++ t2 ++ t3 ++ t4 ++ t5 ++ t6 ++ t7 ++ t8).

(** The answer to a call that returns a pointer through an out parameter:
    a failed [HRESULT], success with a null pointer, or success. *)
Inductive Out : Type := Failed | OkNull | OkPtr.

Definition got (o : Out) : bool :=
  match o with OkPtr => true | _ => false end.

Definition succeeded (o : Out) : bool :=
  match o with Failed => false | _ => true end.

(** What the system answers during [InitWASAPI], one field per call.  The
    pointers of the first three interfaces are used without a null check,
    so for them success means a pointer, as COM promises; the three
    pointers the code does check can come back null. *)
Record InitAnswers : Type := mkAnswers {
  a_CoInitializeEx : bool;
  a_CoCreateInstance : bool;
  a_GetDefaultAudioEndpoint : bool;
  a_Activate : bool;
  a_GetMixFormat : Out;
  a_Initialize : bool;
  a_GetBufferSize : option Z;     (* None when FAILED, else the size *)
  a_CreateEventW : bool;          (* the handle is non-null *)
  a_SetEventHandle : bool;
  a_GetService : Out;
  a_GetBuffer : Out;
  a_ReleaseBuffer : bool;
  a_CreateThread : bool           (* the handle is non-null *)
}.

(** [{ ShutdownWASAPI(); return false; }] after the calls made so far. *)
Definition bail (g : WasapiContext) (calls : list ApiCall)
    : bool * WasapiContext * list ApiCall :=
  let '(g', t) := ShutdownWASAPI g in (false, g', calls ++ t).

Definition set_coInit (g : WasapiContext) : WasapiContext :=
  mkContext (pEnum g) (pDev g) (pCli g) (pRen g) (hEvent g) (pMixFmt g)
            (bufferFrames g) (hAudioThread g) (hAvrt g) (running g) true.
Definition set_pEnum (b : bool) (g : WasapiContext) : WasapiContext :=
  mkContext b (pDev g) (pCli g) (pRen g) (hEvent g) (pMixFmt g)
            (bufferFrames g) (hAudioThread g) (hAvrt g) (running g) (coInit g).
Definition set_pDev (b : bool) (g : WasapiContext) : WasapiContext :=
  mkContext (pEnum g) b (pCli g) (pRen g) (hEvent g) (pMixFmt g)
            (bufferFrames g) (hAudioThread g) (hAvrt g) (running g) (coInit g).
Definition set_pCli (b : bool) (g : WasapiContext) : WasapiContext :=
  mkContext (pEnum g) (pDev g) b (pRen g) (hEvent g) (pMixFmt g)
            (bufferFrames g) (hAudioThread g) (hAvrt g) (running g) (coInit g).
Definition set_pRen (b : bool) (g : WasapiContext) : WasapiContext :=
  mkContext (pEnum g) (pDev g) (pCli g) b (hEvent g) (pMixFmt g)
            (bufferFrames g) (hAudioThread g) (hAvrt g) (running g) (coInit g).
Definition set_hEvent (b : bool) (g : WasapiContext) : WasapiContext :=
  mkContext (pEnum g) (pDev g) (pCli g) (pRen g) b (pMixFmt g)
            (bufferFrames g) (hAudioThread g) (hAvrt g) (running g) (coInit g).
Definition set_pMixFmt (b : bool) (g : WasapiContext) : WasapiContext :=
  mkContext (pEnum g) (pDev g) (pCli g) (pRen g) (hEvent g) b
            (bufferFrames g) (hAudioThread g) (hAvrt g) (running g) (coInit g).
Definition set_bufferFrames (n : Z) (g : WasapiContext) : WasapiContext :=
  mkContext (pEnum g) (pDev g) (pCli g) (pRen g) (hEvent g) (pMixFmt g)
            n (hAudioThread g) (hAvrt g) (running g) (coInit g).
Definition set_hAudioThread (b : bool) (g : WasapiContext) : WasapiContext :=
  mkContext (pEnum g) (pDev g) (pCli g) (pRen g) (hEvent g) (pMixFmt g)
            (bufferFrames g) b (hAvrt g) (running g) (coInit g).

(** [InitWASAPI], lines 347-410: the result, the context left and the calls
    made.  A failed call leaves its out parameter as it was. *)
Definition InitWASAPI (a : InitAnswers) (g : WasapiContext)
    : bool * WasapiContext * list ApiCall :=
  if negb (a_CoInitializeEx a) then (false, g, [CoInitializeEx]) else
  let g := set_coInit g in
  let c := [CoInitializeEx; CoCreateInstance] in
  let g := if a_CoCreateInstance a then set_pEnum true g else g in
  if negb (a_CoCreateInstance a) then bail g c else
  let c := c ++ [GetDefaultAudioEndpoint] in
  let g := if a_GetDefaultAudioEndpoint a then set_pDev true g else g in
  if negb (a_GetDefaultAudioEndpoint a) then bail g c else
  let c := c ++ [Activate] in
  let g := if a_Activate a then set_pCli true g else g in
  if negb (a_Activate a) then bail g c else
  let c := c ++ [GetMixFormat] in
  let g := if succeeded (a_GetMixFormat a)
           then set_pMixFmt (got (a_GetMixFormat a)) g else g in
  if negb (succeeded (a_GetMixFormat a)) || negb (pMixFmt g)
  then bail g c else
  let c := c ++ [Initialize] in
  if negb (a_Initialize a) then bail g c else
  let c := c ++ [GetBufferSize] in
  let g := match a_GetBufferSize a with
           | Some n => set_bufferFrames n g
           | None => g
           end in
  if match a_GetBufferSize a with
     | Some _ => (bufferFrames g =? 0)%Z
     | None => true
     end
  then bail g c else
  let c := c ++ [CreateEventW] in
  let g := set_hEvent (a_CreateEventW a) g in
  if negb (hEvent g) then bail g c else
  let c := c ++ [SetEventHandle] in
  if negb (a_SetEventHandle a) then bail g c else
  let c := c ++ [GetService] in
  let g := if succeeded (a_GetService a)
           then set_pRen (got (a_GetService a)) g else g in
  if negb (succeeded (a_GetService a)) || negb (pRen g) then bail g c else
  let c := c ++ [GetBuffer] in
  if negb (got (a_GetBuffer a)) then bail g c else
  let c := c ++ [ReleaseBuffer] in
  if negb (a_ReleaseBuffer a) then bail g c else
  let c := c ++ [CreateThread] in
  let g := set_hAudioThread (a_CreateThread a) g in
  if negb (hAudioThread g) then bail g c else
  (true, g, c).

(** Nothing that [InitWASAPI] acquires is held: the interface pointers,
    the event, format and thread handles are null and COM is not
    initialized by this program.  [hAvrt] belongs to the render thread and
    is not part of it. *)
Definition released (g : WasapiContext) : Prop :=
  pEnum g = false /\ pDev g = false /\ pCli g = false /\ pRen g = false
  /\ hEvent g = false /\ pMixFmt g = false /\ hAudioThread g = false
  /\ coInit g = false.

(** Everything the render thread needs is held. *)
Definition ready (g : WasapiContext) : Prop :=
  pEnum g = true /\ pDev g = true /\ pCli g = true /\ pRen g = true
  /\ hEvent g = true /\ pMixFmt g = true /\ hAudioThread g = true
  /\ coInit g = true /\ bufferFrames g <> 0%Z.

(** The teardown sequence of [ShutdownWASAPI] and, for each of its calls,
    the pointer or handle that guards it. *)
Definition shutdown_order : list ApiCall :=
  [WaitForThread; CloseThreadHandle; CloseEventHandle;
   ReleaseRen; ReleaseCli; ReleaseDev; ReleaseEnum;
   CoTaskMemFree; CoUninitialize].

Definition held (g : WasapiContext) (call : ApiCall) : bool :=
  match call with
  | WaitForThread | CloseThreadHandle => hAudioThread g
  | CloseEventHandle => hEvent g
  | ReleaseRen => pRen g
  | ReleaseCli => pCli g
  | ReleaseDev => pDev g
  | ReleaseEnum => pEnum g
  | CoTaskMemFree => pMixFmt g
  | CoUninitialize => coInit g
  | _ => false
  end.

(** The setup sequence of a successful [InitWASAPI]. *)
Definition init_order : list ApiCall :=
  [CoInitializeEx; CoCreateInstance; GetDefaultAudioEndpoint; Activate;
   GetMixFormat; Initialize; GetBufferSize; CreateEventW; SetEventHandle;
   GetService; GetBuffer; ReleaseBuffer; CreateThread].

(** Every call of [InitWASAPI] is answered favourably. *)
Definition all_succeed (a : InitAnswers) : Prop :=
  a_CoInitializeEx a = true /\ a_CoCreateInstance a = true
  /\ a_GetDefaultAudioEndpoint a = true /\ a_Activate a = true
  /\ a_GetMixFormat a = OkPtr /\ a_Initialize a = true
  /\ (exists n, a_GetBufferSize a = Some n /\ n <> 0%Z)
  /\ a_CreateEventW a = true /\ a_SetEventHandle a = true
  /\ a_GetService a = OkPtr /\ a_GetBuffer a = OkPtr
  /\ a_ReleaseBuffer a = true /\ a_CreateThread a = true.

End Wasapi.

(** ** The smoother on binary32 (line 85 with its three roundings)

    [float] is IEEE binary32: 24 bits of precision, exponents up to 128,
    every operation rounded to nearest, ties to even. *)

Module Binary32.

Definition prec : Z := 24.
Definition emax : Z := 128.

Definition add : spec_float -> spec_float -> spec_float := SFadd prec emax.
Definition sub : spec_float -> spec_float -> spec_float := SFsub prec emax.
Definition mul : spec_float -> spec_float -> spec_float := SFmul prec emax.

(** [current + coeff * (target - current)] *)
Definition smooth_step (current target coeff : spec_float) : spec_float :=
  add current (mul coeff (sub target current)).


(** [0.075f], [1.0f] and the largest finite float. *)
Definition gainSmoothCoeff : spec_float := S754_finite false 10066330 (-27).

End Binary32.

(** ** Predicates of the statements *)

(** A phase is wrapped when it lies in [0, kTwoPi), the program's 2π. *)
Definition phase_in_range (x : R) : Prop := 0 <= x < kTwoPi.

Definition phases_in_range (s : SynthState) : Prop :=
  phase_in_range (phaseA s) /\ phase_in_range (phaseB s)
  /\ phase_in_range (vibratoPhase s).

(** The three per-sample increments of one loop body. *)
Definition increments_ok (dt : R) (p : SynthParams) (w : RenderState)
    : Prop :=
  let v := synth_voice dt p (gSynth w) (noise_seed w) in
  phase_in_range (kTwoPi * 5.5 * dt)
  /\ phase_in_range (v_incA v) /\ phase_in_range (v_incB v).

(** The increments of every sample of a run, each taken in the state its
    sample starts from. *)
Fixpoint increments_in_range (dt : R) (ps : list SynthParams)
    (w : RenderState) : Prop :=
  match ps with
  | [] => True
  | p :: ps' =>
      increments_ok dt p w
      /\ match sample_step dt p w with
         | Some (w', _) => increments_in_range dt ps' w'
         | None => True
         end
  end.

(** Both delay lines have [n] cells and the cursor points at one of them. *)
Definition delay_inv (n : nat) (s : SynthState) : Prop :=
  length (delayBufL s) = n /\ length (delayBufR s) = n
  /\ (delayIndex s < n)%nat.

(** The ranges of the control targets (section 3 of the specification). *)
Definition params_valid (p : SynthParams) : Prop :=
  kMinHz <= targetHz p <= kMaxHz
  /\ 0 <= targetGain p <= 1
  /\ (1 <= mode p <= 4)%Z
  /\ (vibratoDepth p = 0 \/ vibratoDepth p = 1).

(** Targets and depth for which the increments stay small. *)
Definition in_band (p : SynthParams) : Prop :=
  kMinHz <= targetHz p <= kMaxHz /\ 0 <= vibratoDepth p <= 1.

(** Every cell of both delay lines lies in [-B, B]. *)
Definition cells_within (B : R) (s : SynthState) : Prop :=
  Forall (fun x => - B <= x <= B) (delayBufL s)
  /\ Forall (fun x => - B <= x <= B) (delayBufR s).

(** Both channels of a frame lie in [-B, B]. *)
Definition frame_within (B : R) (frame : R * R) : Prop :=
  - B <= fst frame <= B /\ - B <= snd frame <= B.

(** A pass that finds the flag set and has nothing to do: the wait was not
    signalled, or it was and no frame is free. *)
Definition idle_wake (dev : Device) (wk : Wake) : Prop :=
  wk_running wk = true
  /\ (wk_wait wk <> WAIT_OBJECT_0
      \/ exists padding,
           wk_padding wk = Some padding
           /\ framesToWrite dev padding = 0%Z).

(** The device hands out a buffer of as many frames as were asked for:
    [framesToWrite · channels] samples, fewer than 2^32. *)
Definition wake_ok (dev : Device) (wk : Wake) : Prop :=
  forall padding out,
    wk_padding wk = Some padding -> wk_buffer wk = Some out ->
    length out = (Z.to_nat (framesToWrite dev padding) * nChannels dev)%nat
    /\ (Z.of_nat (length out) < 2 ^ 32)%Z.

(** ** The specification's table of waveforms (section 4.4)

    Written from the specification's words, to be compared with
    [mode_engine]: the soft saturation [x·(27+x²)/(27+9x²)] and one row per
    mode, [noise] being the value the noise generator hands to mode 3. *)
Definition spec_softsat (x : R) : R := x * (27 + x ^ 2) / (27 + 9 * x ^ 2).

Definition spec_mode_table (mode : Z) (carrier modulator noise : R) : R :=
  if (mode =? 1)%Z then sin carrier
  else if (mode =? 2)%Z then
    0.70 * sin carrier + 0.45 * sin carrier * sin modulator
  else if (mode =? 3)%Z then
    spec_softsat (0.85 * sin carrier + 0.25 * noise)
  else if (mode =? 4)%Z then
    0.6 * soft_saw carrier + 0.4 * soft_tri carrier
  else sin carrier.

(** * Properties *)

(** ** Elementary facts about the utilities *)

Section Saturation.

(** The rational factor of [fast_tanhf] lies in (0, 1]. *)
Lemma fast_tanhf_factor (x : R) :
  fast_tanhf x = x * ((27 + x * x) / (27 + 9 * (x * x)))
  /\ 0 < (27 + x * x) / (27 + 9 * (x * x)) <= 1.
Proof.
  assert (Hx : 0 <= x * x) by nra.
  assert (Hd : 0 < 27 + 9 * (x * x)) by lra.
  split.
  - unfold fast_tanhf. cbv zeta. field. lra.
  - split.
    + apply Rdiv_lt_0_compat; lra.
    + apply (Rmult_le_reg_r (27 + 9 * (x * x))); [lra |].
      unfold Rdiv. rewrite Rmult_assoc, Rinv_l by lra. lra.
Qed.

(** Soft saturation never amplifies: it keeps any interval around zero. *)
Lemma fast_tanhf_bound (x lo hi : R) :
  lo <= 0 <= hi -> lo <= x <= hi -> lo <= fast_tanhf x <= hi.
Proof.
  intros [Hlo Hhi] [Hx1 Hx2].
  destruct (fast_tanhf_factor x) as [-> [Hq0 Hq1]].
  set (q := (27 + x * x) / (27 + 9 * (x * x))) in *.
  destruct (Rle_dec 0 x) as [Hpos | Hneg].
  - split; nra.
  - split; nra.
Qed.

Lemma fast_tanhf_0 : fast_tanhf 0 = 0.
Proof. unfold fast_tanhf. cbv zeta. field. Qed.

End Saturation.

Section Noise.

Example lcg_first_draws :
  lcg_next initial_seed = 1967335287%Z
  /\ lcg_next (lcg_next initial_seed) = 3442499178%Z.
Proof. split; reflexivity. Qed.

Lemma lcg_next_range (seed : Z) : (0 <= lcg_next seed < 2 ^ 32)%Z.
Proof. unfold lcg_next. apply Z.mod_pos_bound. lia. Qed.

Lemma low24_range (z : Z) : (0 <= Z.land z 0x00FFFFFF < 16777216)%Z.
Proof.
  change 0x00FFFFFF%Z with (Z.ones 24).
  rewrite Z.land_ones by lia.
  change 16777216%Z with (2 ^ 24)%Z.
  apply Z.mod_pos_bound. lia.
Qed.

(** The noise sample lies in [-1, 1) and the seed stays a 32-bit value. *)
Lemma white_noise_range (seed : Z) :
  -1 <= fst (white_noise seed) < 1
  /\ (0 <= snd (white_noise seed) < 2 ^ 32)%Z.
Proof.
  unfold white_noise. cbv zeta. simpl fst. simpl snd.
  split; [| apply lcg_next_range].
  pose proof (low24_range (lcg_next seed)) as [H0 H1].
  apply IZR_le in H0. apply IZR_lt in H1.
  set (m := IZR (Z.land (lcg_next seed) 0x00FFFFFF)) in *.
  split; lra.
Qed.

End Noise.

(** ** The waveform mode engine *)

Section ModeEngine.

Lemma kTwoPi_bounds : 6.28 < kTwoPi < 6.29.
Proof. unfold kTwoPi. split; lra. Qed.

(** A phase of at most 8 radians is at most 1.28 turns of [kTwoPi]. *)
Lemma turns_bound (a : R) :
  0 <= a <= 8 -> 0 <= a / kTwoPi <= 1.28.
Proof.
  intros [H0 H1].
  pose proof kTwoPi_bounds as [Hk _].
  set (r := a / kTwoPi).
  assert (Ha : a = r * kTwoPi) by (unfold r; field; lra).
  split; nra.
Qed.

(** Both readings of 2π, the exact one and the program's, are below 8. *)
Lemma two_pi_le_8 : Rmax kTwoPi (2 * PI) <= 8.
Proof.
  pose proof PI_4 as HPI. pose proof kTwoPi_bounds as [_ Hk].
  apply Rmax_lub; lra.
Qed.

Lemma soft_saw_bound (a : R) :
  0 <= a <= 8 -> -0.8 <= soft_saw a <= 1.25.
Proof.
  intros Ha. apply turns_bound in Ha. unfold soft_saw. cbv zeta.
  apply fast_tanhf_bound; lra.
Qed.

Lemma soft_tri_bound (a : R) :
  0 <= a <= 8 -> -0.8 <= soft_tri a <= 0.8.
Proof.
  intros Ha. apply turns_bound in Ha. unfold soft_tri. cbv zeta.
  apply fast_tanhf_bound; [lra |].
  unfold Rabs. destruct (Rcase_abs (a / kTwoPi - 0.5)); lra.
Qed.

(** The [default:] label: any mode other than 1, 2, 3, 4. *)
Lemma mode_engine_default (mode : Z) (a b : R) (seed : Z) :
  mode <> 1%Z -> mode <> 2%Z -> mode <> 3%Z -> mode <> 4%Z ->
  mode_engine mode a b seed = (sine a, seed).
Proof.
  intros E1 E2 E3 E4. unfold mode_engine. cbv zeta.
  destruct mode as [| m | m]; try reflexivity.
  destruct m as [[[|m|]|[|m|]|]|[[|m|]|[|m|]|]|]; try reflexivity; lia.
Qed.

(** The bound holds for every mode value and every modulator phase. *)
Lemma mode_engine_bounded_any (mode : Z) (a b : R) (seed : Z) :
  0 <= a <= 8 -> -1.2 <= fst (mode_engine mode a b seed) <= 1.2.
Proof.
  intros Ha.
  pose proof (SIN_bound a) as [Ha1 Ha2].
  pose proof (SIN_bound b) as [Hb1 Hb2].
  destruct (Z.eq_dec mode 1%Z) as [-> | E1].
  { unfold mode_engine, sine. simpl. lra. }
  destruct (Z.eq_dec mode 2%Z) as [-> | E2].
  { unfold mode_engine, sine. simpl. split; nra. }
  destruct (Z.eq_dec mode 3%Z) as [-> | E3].
  { unfold mode_engine, sine. cbv zeta.
    pose proof (white_noise_range seed) as [[Hn1 Hn2] _].
    destruct (white_noise seed) as [w seed'] eqn:Hw. simpl in Hn1, Hn2.
    simpl fst. apply fast_tanhf_bound; lra. }
  destruct (Z.eq_dec mode 4%Z) as [-> | E4].
  { unfold mode_engine. cbv zeta.
    pose proof (soft_saw_bound a Ha) as [Hs1 Hs2].
    pose proof (soft_tri_bound a Ha) as [Ht1 Ht2].
    simpl fst. lra. }
  rewrite mode_engine_default by assumption. unfold sine. simpl. lra.
Qed.

End ModeEngine.

(** C1. For each of the modes 1, 2, 3 and 4, for a carrier and a modulator
    phase in [0, 2π), 2π being the exact constant or the program's
    [kTwoPi], and whatever the state of the noise generator (its draw is in
    [-1, 1)), the sample computed by the mode switch lies in [-1.2, 1.2]. *)
Theorem mode_engine_bounded (mode : Z) (a b : R) (seed : Z) :
  (1 <= mode <= 4)%Z ->
  0 <= a < Rmax kTwoPi (2 * PI) -> 0 <= b < Rmax kTwoPi (2 * PI) ->
  -1.2 <= fst (mode_engine mode a b seed) <= 1.2.
Proof.
  intros _ [Ha0 Ha1] _.
  pose proof two_pi_le_8 as H8.
  apply mode_engine_bounded_any. lra.
Qed.

Lemma mode_engine_bounded_witness :
  (1 <= 3 <= 4)%Z
  /\ 0 <= 1 < Rmax kTwoPi (2 * PI) /\ 0 <= 2 < Rmax kTwoPi (2 * PI)
  /\ -1.2 <= fst (mode_engine 3 1 2 initial_seed) <= 1.2.
Proof.
  pose proof (Rmax_l kTwoPi (2 * PI)) as Hmax.
  pose proof kTwoPi_bounds as [Hk _].
  assert (H1 : 0 <= 1 < Rmax kTwoPi (2 * PI)) by lra.
  assert (H2 : 0 <= 2 < Rmax kTwoPi (2 * PI)) by lra.
  assert (Hm : (1 <= 3 <= 4)%Z) by lia.
  exact (conj Hm (conj H1 (conj H2
           (mode_engine_bounded 3 1 2 initial_seed Hm H1 H2)))).
Defined.

(** ** The smoothing stage *)

Section Smoothing.

Variables (t k : R).
Hypothesis Hk : 0 < k < 1.

#[local] Abbreviation smooth_run := (smooth_run t k).

Lemma smooth_run_S (n : nat) (c : R) :
  smooth_run (S n) c = smooth_step (smooth_run n c) t k.
Proof. reflexivity. Qed.

(** The remaining distance after one step is the factor [1 - k] of the
    distance before it. *)
Lemma smooth_step_error (c : R) :
  t - smooth_step c t k = (1 - k) * (t - c).
Proof. unfold smooth_step. ring. Qed.

Lemma smooth_step_distance (c : R) :
  Rabs (t - smooth_step c t k) = (1 - k) * Rabs (t - c).
Proof.
  rewrite smooth_step_error, Rabs_mult.
  rewrite (Rabs_pos_eq (1 - k)) by lra. reflexivity.
Qed.




Lemma smooth_run_distance (n : nat) (c : R) :
  Rabs (t - smooth_run n c) = (1 - k) ^ n * Rabs (t - c).
Proof.
  induction n as [| n IH].
  - simpl. lra.
  - rewrite smooth_run_S, smooth_step_distance, IH. simpl. ring.
Qed.



(** The sequence converges to the target. *)
Lemma smooth_run_converges (c : R) :
  Un_cv (fun n => smooth_run n c) t.
Proof.
  intros eps Heps.
  destruct (Req_dec (t - c) 0) as [Hz | Hnz].
  - exists 0%nat. intros n _. unfold Rdist.
    rewrite Rabs_minus_sym, smooth_run_distance, Hz, Rabs_R0. lra.
  - assert (Hd : 0 < Rabs (t - c)) by (apply Rabs_pos_lt; exact Hnz).
    assert (Hlt : Rabs (1 - k) < 1) by (rewrite Rabs_pos_eq; lra).
    destruct (pow_lt_1_zero (1 - k) Hlt (eps / Rabs (t - c))) as [N HN].
    { apply Rdiv_lt_0_compat; lra. }
    exists N. intros n Hn. unfold Rdist.
    rewrite Rabs_minus_sym, smooth_run_distance.
    specialize (HN n Hn).
    rewrite Rabs_pos_eq in HN by (apply pow_le; lra).
    apply (Rmult_lt_compat_r (Rabs (t - c))) in HN; [| exact Hd].
    unfold Rdiv in HN. rewrite Rmult_assoc, Rinv_l in HN by lra. lra.
Qed.

End Smoothing.

(** The two coefficients the render loop passes are in (0, 1). *)
Lemma smoothing_coefficients :
  0 < hzSmoothCoeff < 1 /\ 0 < gainSmoothCoeff < 1.
Proof. unfold hzSmoothCoeff, gainSmoothCoeff. lra. Qed.




(** ** The straight-line part of a sample and the delay stage *)

Section SampleStep.

Variables (dt : R) (p : SynthParams) (s : SynthState) (seed : Z).

#[local] Abbreviation v := (synth_voice dt p s seed).

Lemma voice_smoothHz :
  v_smoothHz v = smooth_step (smoothHz s) (targetHz p) hzSmoothCoeff.
Proof. unfold synth_voice. destruct mode_engine. reflexivity. Qed.

Lemma voice_smoothGain :
  v_smoothGain v = smooth_step (smoothGain s) (targetGain p) gainSmoothCoeff.
Proof. unfold synth_voice. destruct mode_engine. reflexivity. Qed.

Lemma voice_vibratoPhase :
  v_vibratoPhase v = advance_phase (vibratoPhase s) (kTwoPi * 5.5 * dt).
Proof. unfold synth_voice. destruct mode_engine. reflexivity. Qed.

Lemma voice_vibrato :
  v_vibrato v =
  if Rgt_dec (vibratoDepth p) 0
  then 0.01 * vibratoDepth p * sin (v_vibratoPhase v) else 0.
Proof. unfold synth_voice. destruct mode_engine. reflexivity. Qed.

Lemma voice_hz : v_hz v = v_smoothHz v * (1 + v_vibrato v).
Proof. unfold synth_voice. destruct mode_engine. reflexivity. Qed.

Lemma voice_incA : v_incA v = kTwoPi * v_hz v * dt.
Proof. unfold synth_voice. destruct mode_engine. reflexivity. Qed.

Lemma voice_incB : v_incB v = kTwoPi * (v_hz v * 1.997) * dt.
Proof. unfold synth_voice. destruct mode_engine. reflexivity. Qed.

Lemma voice_phaseA : v_phaseA v = advance_phase (phaseA s) (v_incA v).
Proof. unfold synth_voice. destruct mode_engine. reflexivity. Qed.

Lemma voice_phaseB : v_phaseB v = advance_phase (phaseB s) (v_incB v).
Proof. unfold synth_voice. destruct mode_engine. reflexivity. Qed.

Lemma voice_sample :
  (v_sample v, v_seed v) = mode_engine (mode p) (v_phaseA v) (v_phaseB v) seed.
Proof. unfold synth_voice. destruct mode_engine eqn:E. simpl. rewrite E. reflexivity. Qed.

Lemma voice_gain : v_gain v = if mute p then 0 else v_smoothGain v.
Proof. unfold synth_voice. destruct mode_engine. reflexivity. Qed.

Lemma voice_dry :
  v_dryL v = v_sample v * v_gain v /\ v_dryR v = v_sample v * v_gain v.
Proof. unfold synth_voice. destruct mode_engine. split; reflexivity. Qed.

End SampleStep.

Section DelayStage.

Variables (bufL bufR : list R) (di : nat) (dryL dryR : R).

Lemma decorrelate_spec (dL dR : R) :
  bufL !! di = Some dL -> bufR !! di = Some dR ->
  decorrelate bufL bufR di dryL dryR =
  Some (mkDecor (<[di := 0.85 * dL + 0.15 * dryL]> bufL)
                (<[di := 0.85 * dR + 0.15 * dryR]> bufR)
                ((di + 1) mod length bufL)
                (0.85 * dryL + 0.15 * dR)
                (0.85 * dryR + 0.15 * dL)).
Proof.
  intros HL HR. unfold decorrelate. rewrite HL, HR. simpl.
  apply lookup_lt_Some in HL.
  rewrite !length_insert.
  destruct (decide (length bufL = 0%nat)) as [Hz | _]; [lia | reflexivity].
Qed.

Lemma decorrelate_defined :
  (di < length bufL)%nat -> length bufL = length bufR ->
  exists dL dR, bufL !! di = Some dL /\ bufR !! di = Some dR.
Proof.
  intros Hdi Hlen.
  destruct (lookup_lt_is_Some_2 bufL di Hdi) as [dL HL].
  assert (Hdi' : (di < length bufR)%nat) by lia.
  destruct (lookup_lt_is_Some_2 bufR di Hdi') as [dR HR].
  exists dL, dR. split; assumption.
Qed.

(** The stage has a result exactly when both reads are inside. *)
Lemma decorrelate_undefined :
  (length bufL <= di)%nat \/ (length bufR <= di)%nat ->
  decorrelate bufL bufR di dryL dryR = None.
Proof.
  intros H. unfold decorrelate.
  destruct (bufL !! di) as [dL |] eqn:HL; [| reflexivity]. simpl.
  destruct (bufR !! di) as [dR |] eqn:HR; [| reflexivity].
  apply lookup_lt_Some in HL. apply lookup_lt_Some in HR. lia.
Qed.

End DelayStage.

Section SampleStepSpec.

Variables (dt : R) (p : SynthParams) (w : RenderState).

#[local] Abbreviation s := (gSynth w).
#[local] Abbreviation v := (synth_voice dt p (gSynth w) (noise_seed w)).

(** What one sample stores and emits when both delay reads are inside. *)
Lemma sample_step_spec (dL dR : R) :
  delayBufL s !! delayIndex s = Some dL ->
  delayBufR s !! delayIndex s = Some dR ->
  sample_step dt p w =
  Some (mkRender
          (mkState (v_phaseA v) (v_phaseB v) (v_smoothHz v)
             (v_smoothGain v) (v_vibratoPhase v) (delayL s) (delayR s)
             (<[delayIndex s := 0.85 * dL + 0.15 * v_dryL v]> (delayBufL s))
             (<[delayIndex s := 0.85 * dR + 0.15 * v_dryR v]> (delayBufR s))
             ((delayIndex s + 1) mod length (delayBufL s)))
          (v_seed v),
        (0.85 * v_dryL v + 0.15 * dR, 0.85 * v_dryR v + 0.15 * dL)).
Proof.
  intros HL HR. unfold sample_step.
  rewrite (decorrelate_spec _ _ _ _ _ dL dR HL HR). reflexivity.
Qed.

(** Under the delay invariant a sample always has a result, and the
    invariant holds again in the state it stores. *)
Lemma sample_step_defined (n : nat) :
  delay_inv n s ->
  exists w' frame,
    sample_step dt p w = Some (w', frame) /\ delay_inv n (gSynth w').
Proof.
  intros (HL & HR & Hdi).
  destruct (decorrelate_defined (delayBufL s) (delayBufR s) (delayIndex s))
    as (dL & dR & HdL & HdR); [lia | lia |].
  eexists _, _. split; [apply (sample_step_spec dL dR HdL HdR) |].
  unfold delay_inv. simpl. rewrite !length_insert, HL, HR.
  repeat split. apply Nat.mod_upper_bound. lia.
Qed.

(** The scalar fields a sample stores are those of its voice. *)
Lemma sample_step_stores (w' : RenderState) (frame : R * R) :
  sample_step dt p w = Some (w', frame) ->
  phaseA (gSynth w') = v_phaseA v /\ phaseB (gSynth w') = v_phaseB v
  /\ smoothHz (gSynth w') = v_smoothHz v
  /\ smoothGain (gSynth w') = v_smoothGain v
  /\ vibratoPhase (gSynth w') = v_vibratoPhase v
  /\ noise_seed w' = v_seed v.
Proof.
  unfold sample_step. intros H.
  destruct decorrelate as [d |]; simpl in H; [| discriminate].
  injection H as <- _. simpl. repeat split; reflexivity.
Qed.

End SampleStepSpec.

(** ** Sizing of the delay lines *)

Section DelayInit.

(** The integer formula is the exact product rounded down. *)
Lemma delaySamples_floor (rate : Z) :
  (0 <= rate)%Z ->
  INR (delaySamples rate) <= IZR rate * 0.012 < INR (delaySamples rate) + 1.
Proof.
  intros Hr. unfold delaySamples.
  assert (Hq : (0 <= rate * 12 / 1000)%Z) by (apply Z.div_pos; lia).
  rewrite INR_IZR_INZ, Z2Nat.id by exact Hq.
  pose proof (Z.div_mod (rate * 12) 1000 ltac:(lia)) as Hdm.
  pose proof (Z.mod_pos_bound (rate * 12) 1000 ltac:(lia)) as [Hm0 Hm1].
  set (q := (rate * 12 / 1000)%Z) in *.
  set (m := ((rate * 12) mod 1000)%Z) in *.
  assert (HR : IZR rate * 12 = 1000 * IZR q + IZR m).
  { rewrite <- mult_IZR, Hdm, plus_IZR, mult_IZR. reflexivity. }
  apply IZR_le in Hm0. apply IZR_lt in Hm1.
  split; lra.
Qed.

Lemma delaySamples_48k : (1 <= delaySamples 48000)%nat.
Proof. vm_compute. lia. Qed.

(** Lines 146-149 establish the delay invariant if a cell exists. *)
Lemma init_delay_inv (rate : Z) (s : SynthState) :
  (1 <= delaySamples rate)%nat ->
  delay_inv (delaySamples rate) (init_delay rate s).
Proof.
  intros Hn. unfold delay_inv, init_delay. simpl.
  rewrite length_replicate. repeat split. lia.
Qed.

End DelayInit.

(** ** The mode engine against the specification's table *)

Lemma spec_softsat_fast_tanhf (x : R) : fast_tanhf x = spec_softsat x.
Proof. unfold fast_tanhf, spec_softsat. cbv zeta. simpl pow. rewrite Rmult_1_r. reflexivity. Qed.

(** C5, as stated, fails on purity: in mode 3 two successive calls with the
    same carrier phase, modulator phase and mode return different samples,
    because each call draws from, and advances, the noise generator. *)
Lemma mode3_depends_on_noise_state :
  let first := mode_engine 3 0 0 initial_seed in
  let second := mode_engine 3 0 0 (snd first) in
  fst first <> fst second /\ snd first <> initial_seed.
Proof.
  cbv zeta. unfold mode_engine, white_noise, sine. cbv zeta. simpl fst. simpl snd.
  change (lcg_next initial_seed) with 1967335287%Z.
  change (lcg_next 1967335287) with 3442499178%Z.
  change (Z.land 1967335287 0x00FFFFFF) with 4401015%Z.
  change (Z.land 3442499178 0x00FFFFFF) with 3169898%Z.
  rewrite sin_0. unfold fast_tanhf. cbv zeta.
  split; [lra | ].
  unfold initial_seed. discriminate.
Qed.

(** C5, amended.  The mode engine is a function of the carrier phase, the
    modulator phase, the mode and the noise generator's state.  Its sample
    is the specification's table: [sin carrier] in mode 1, the ring
    modulation in mode 2, the soft saturation of [0.85·sin carrier +
    0.25·noise] in mode 3 where [noise], in [-1, 1), is the generator's next
    draw, the saw/triangle blend in mode 4, and [sin carrier] for any other
    mode value.  Mode 3 advances the generator by one step; every other
    mode neither reads nor changes it.  There is no error case. *)
Theorem mode_engine_table (mode : Z) (carrier modulator : R) (seed : Z) :
  let noise := fst (white_noise seed) in
  mode_engine mode carrier modulator seed
  = (spec_mode_table mode carrier modulator
       (if (mode =? 3)%Z then noise else 0),
     if (mode =? 3)%Z then lcg_next seed else seed)
  /\ -1 <= noise < 1.
Proof.
  intros noise. split; [| apply white_noise_range].
  unfold spec_mode_table.
  destruct (mode =? 1)%Z eqn:E1.
  { apply Z.eqb_eq in E1. subst mode. simpl. reflexivity. }
  destruct (mode =? 2)%Z eqn:E2.
  { apply Z.eqb_eq in E2. subst mode. unfold mode_engine, sine. simpl.
    f_equal. ring. }
  destruct (mode =? 3)%Z eqn:E3.
  { apply Z.eqb_eq in E3. subst mode. unfold mode_engine, sine, noise.
    unfold white_noise. cbv zeta. simpl fst.
    rewrite spec_softsat_fast_tanhf. reflexivity. }
  destruct (mode =? 4)%Z eqn:E4.
  { apply Z.eqb_eq in E4. subst mode. reflexivity. }
  apply Z.eqb_neq in E1, E2, E3, E4.
  apply mode_engine_default; assumption.
Qed.

(** ** Phase wraparound *)

Section PhaseWrap.

Lemma advance_phase_in_range (x inc : R) :
  phase_in_range x -> phase_in_range inc ->
  phase_in_range (advance_phase x inc).
Proof.
  unfold phase_in_range, advance_phase. cbv zeta. intros Hx Hinc.
  destruct (Rge_dec (x + inc) kTwoPi) as [Hge | Hlt]; lra.
Qed.

(** One conditional subtraction is not enough for a larger increment. *)
Lemma advance_phase_large_increment :
  ~ phase_in_range (advance_phase 0 (2 * kTwoPi)).
Proof.
  unfold phase_in_range, advance_phase, kTwoPi. cbv zeta.
  destruct Rge_dec; lra.
Qed.

Lemma voice_phases_in_range (dt : R) (p : SynthParams) (w : RenderState) :
  phases_in_range (gSynth w) -> increments_ok dt p w ->
  let v := synth_voice dt p (gSynth w) (noise_seed w) in
  phase_in_range (v_phaseA v) /\ phase_in_range (v_phaseB v)
  /\ phase_in_range (v_vibratoPhase v).
Proof.
  intros (HA & HB & HV) (Hvib & HiA & HiB). cbv zeta.
  rewrite voice_phaseA, voice_phaseB, voice_vibratoPhase.
  repeat split; apply advance_phase_in_range; assumption.
Qed.

Lemma sample_step_phases (dt : R) (p : SynthParams) (w w' : RenderState)
    (frame : R * R) :
  phases_in_range (gSynth w) -> increments_ok dt p w ->
  sample_step dt p w = Some (w', frame) ->
  phases_in_range (gSynth w').
Proof.
  intros Hph Hinc Hstep.
  destruct (sample_step_stores dt p w w' frame Hstep)
    as (EA & EB & _ & _ & EV & _).
  unfold phases_in_range. rewrite EA, EB, EV.
  apply voice_phases_in_range; assumption.
Qed.

(** At 48 kHz, with targets in [100, 2000] Hz and a vibrato depth in
    [0, 1], the smoothed frequency stays in [100, 2000] Hz and the three
    increments stay in [0, kTwoPi). *)
Lemma in_band_voice (p : SynthParams) (w : RenderState) :
  in_band p -> kMinHz <= smoothHz (gSynth w) <= kMaxHz ->
  let v := synth_voice (1 / 48000) p (gSynth w) (noise_seed w) in
  kMinHz <= v_smoothHz v <= kMaxHz
  /\ Rabs (v_vibrato v) <= 0.01
  /\ increments_ok (1 / 48000) p w.
Proof.
  unfold in_band, kMinHz, kMaxHz. intros [Ht Hd] Hs. cbv zeta.
  unfold increments_ok. cbv zeta.
  rewrite voice_incB, voice_incA, voice_hz, voice_vibrato, voice_smoothHz.
  set (sm := smooth_step (smoothHz (gSynth w)) (targetHz p) hzSmoothCoeff).
  assert (Hsm : 100 <= sm <= 2000).
  { unfold sm, smooth_step, hzSmoothCoeff. split; nra. }
  set (vib := if Rgt_dec (vibratoDepth p) 0
              then 0.01 * vibratoDepth p
                   * sin (v_vibratoPhase
                            (synth_voice (1 / 48000) p (gSynth w)
                               (noise_seed w)))
              else 0).
  assert (Hvib : -0.01 <= vib <= 0.01).
  { unfold vib. destruct Rgt_dec; [| lra].
    match goal with |- context [sin ?x] =>
      pose proof (SIN_bound x) as [Hs1 Hs2]; set (sn := sin x) in * end.
    split; nra. }
  assert (Hhz : 99 <= sm * (1 + vib) <= 2020) by (split; nra).
  pose proof kTwoPi_bounds as [Hk1 Hk2].
  unfold phase_in_range.
  set (hz := sm * (1 + vib)) in *.
  repeat split; try lra.
  - unfold Rabs. destruct Rcase_abs; lra.
  - nra.
  - nra.
  - nra.
  - nra.
Qed.

Lemma in_band_increments (ps : list SynthParams) (w : RenderState) :
  Forall in_band ps -> kMinHz <= smoothHz (gSynth w) <= kMaxHz ->
  increments_in_range (1 / 48000) ps w.
Proof.
  intros Hps. revert w. induction Hps as [| p ps Hp Hps IH]; intros w Hs.
  - exact I.
  - destruct (in_band_voice p w Hp Hs) as (Hsm & _ & Hinc).
    simpl. split; [exact Hinc |].
    destruct (sample_step (1 / 48000) p w) as [[w' frame] |] eqn:Hstep;
      [| exact I].
    apply IH.
    destruct (sample_step_stores _ p w w' frame Hstep)
      as (_ & _ & E & _).
    rewrite E. exact Hsm.
Qed.

(** The sample of a loop body whose phases are wrapped is within the
    bound of the mode engine, for any mode value. *)
Lemma voice_sample_bounded (dt : R) (p : SynthParams) (w : RenderState) :
  phases_in_range (gSynth w) -> increments_ok dt p w ->
  -1.2 <= v_sample (synth_voice dt p (gSynth w) (noise_seed w)) <= 1.2.
Proof.
  intros Hph Hinc.
  destruct (voice_phases_in_range dt p w Hph Hinc) as ([HA0 HA1] & _).
  pose proof (voice_sample dt p (gSynth w) (noise_seed w)) as Hs.
  apply (f_equal fst) in Hs. simpl in Hs. rewrite Hs.
  pose proof kTwoPi_bounds as [_ Hk].
  apply mode_engine_bounded_any. lra.
Qed.

(** Below zero the guard [vibAmt > 0.0f] switches the vibrato off. *)
Lemma negative_depth_is_ignored (dt : R) (p : SynthParams)
    (s : SynthState) (seed : Z) :
  vibratoDepth p <= 0 ->
  v_hz (synth_voice dt p s seed) = v_smoothHz (synth_voice dt p s seed).
Proof.
  intros Hd. rewrite voice_hz, voice_vibrato.
  destruct (Rgt_dec (vibratoDepth p) 0) as [Hpos | _]; [lra | ring].
Qed.

End PhaseWrap.

(** ** Runs of samples *)

Section Runs.

Variable dt : R.

Lemma render_frames_cons (p : SynthParams) (ps : list SynthParams)
    (w w1 w2 : RenderState) (frame : R * R) (frames : list (R * R)) :
  sample_step dt p w = Some (w1, frame) ->
  render_frames dt ps w1 = Some (w2, frames) ->
  render_frames dt (p :: ps) w = Some (w2, frame :: frames).
Proof. intros H1 H2. simpl. rewrite H1. simpl. rewrite H2. reflexivity. Qed.

Lemma render_frames_cons_inv (p : SynthParams) (ps : list SynthParams)
    (w w2 : RenderState) (out : list (R * R)) :
  render_frames dt (p :: ps) w = Some (w2, out) ->
  exists w1 frame frames,
    sample_step dt p w = Some (w1, frame)
    /\ render_frames dt ps w1 = Some (w2, frames)
    /\ out = frame :: frames.
Proof.
  simpl. intros H.
  destruct (sample_step dt p w) as [[w1 frame] |]; [| discriminate].
  simpl in H.
  destruct (render_frames dt ps w1) as [[w2' frames] |] eqn:Hrun;
    [| discriminate].
  simpl in H. injection H as <- <-.
  exists w1, frame, frames.
  split; [reflexivity | split; [exact Hrun | reflexivity]].
Qed.

(** Under the delay invariant a run of any length has a result, one frame
    per sample, and ends under the invariant. *)
Lemma render_frames_defined (n : nat) (ps : list SynthParams)
    (w : RenderState) :
  delay_inv n (gSynth w) ->
  exists w' frames,
    render_frames dt ps w = Some (w', frames)
    /\ length frames = length ps
    /\ delay_inv n (gSynth w').
Proof.
  revert w. induction ps as [| p ps IH]; intros w Hinv.
  - exists w, []. split; [reflexivity | split; [reflexivity | exact Hinv]].
  - destruct (sample_step_defined dt p w n Hinv)
      as (w1 & frame & Hstep & Hinv1).
    destruct (IH w1 Hinv1) as (w2 & frames & Hrun & Hlen & Hinv2).
    exists w2, (frame :: frames).
    split; [exact (render_frames_cons _ _ _ _ _ _ _ Hstep Hrun) |].
    split; [simpl; rewrite Hlen; reflexivity | exact Hinv2].
Qed.

Lemma render_frames_phases (ps : list SynthParams)
    (w w' : RenderState) (frames : list (R * R)) :
  phases_in_range (gSynth w) -> increments_in_range dt ps w ->
  render_frames dt ps w = Some (w', frames) ->
  phases_in_range (gSynth w').
Proof.
  revert w frames. induction ps as [| p ps IH]; intros w frames Hph Hinc Hrun.
  - simpl in Hrun. injection Hrun as <- _. exact Hph.
  - destruct (render_frames_cons_inv _ _ _ _ _ Hrun)
      as (w1 & frame & frames' & Hstep & Hrun' & _).
    destruct Hinc as [Hinc1 Hinc']. rewrite Hstep in Hinc'.
    apply (IH w1 frames'); [| exact Hinc' | exact Hrun'].
    exact (sample_step_phases dt p w w1 frame Hph Hinc1 Hstep).
Qed.

(** A run splits at any sample. *)
Lemma render_frames_app (ps1 ps2 : list SynthParams)
    (w w1 w2 : RenderState) (f1 f2 : list (R * R)) :
  render_frames dt ps1 w = Some (w1, f1) ->
  render_frames dt ps2 w1 = Some (w2, f2) ->
  render_frames dt (ps1 ++ ps2) w = Some (w2, f1 ++ f2).
Proof.
  revert w f1. induction ps1 as [| p ps1 IH]; intros w f1 H1 H2.
  - simpl in H1. injection H1 as <- <-. exact H2.
  - destruct (render_frames_cons_inv _ _ _ _ _ H1)
      as (wa & frame & frames & Hstep & Hrun & ->).
    simpl app. apply (render_frames_cons _ _ _ wa); [exact Hstep |].
    exact (IH wa frames Hrun H2).
Qed.

(** Over a run the two smoothers fold their step over the targets loaded
    at each sample; no other control enters, mute included. *)
Lemma render_frames_smoothing (ps : list SynthParams)
    (w w' : RenderState) (frames : list (R * R)) :
  render_frames dt ps w = Some (w', frames) ->
  smoothGain (gSynth w')
  = foldl (fun c q => smooth_step c (targetGain q) gainSmoothCoeff)
          (smoothGain (gSynth w)) ps
  /\ smoothHz (gSynth w')
     = foldl (fun c q => smooth_step c (targetHz q) hzSmoothCoeff)
             (smoothHz (gSynth w)) ps.
Proof.
  revert w frames. induction ps as [| p ps IH]; intros w frames Hrun.
  - simpl in Hrun. injection Hrun as <- _. split; reflexivity.
  - destruct (render_frames_cons_inv _ _ _ _ _ Hrun)
      as (w1 & frame & frames' & Hstep & Hrun' & _).
    destruct (IH w1 frames' Hrun') as [HG HH].
    destruct (sample_step_stores dt p w w1 frame Hstep)
      as (_ & _ & EH & EG & _).
    rewrite voice_smoothHz in EH. rewrite voice_smoothGain in EG.
    simpl foldl. rewrite <- EG, <- EH. split; assumption.
Qed.

(** With a target that does not move, that fold is [smooth_run]. *)
Lemma foldl_constant_target (t k : R) (ps : list SynthParams)
    (f : SynthParams -> R) (c : R) :
  Forall (fun q => f q = t) ps ->
  foldl (fun c q => smooth_step c (f q) k) c ps
  = smooth_run t k (length ps) c.
Proof.
  intros Hall. revert c. induction Hall as [| p ps Hp Hall IH]; intros c.
  - reflexivity.
  - simpl foldl. rewrite IH, Hp. simpl length.
    unfold smooth_run. rewrite Nat.iter_succ_r. reflexivity.
Qed.

End Runs.

(** ** Mute *)

(** C3, as stated, fails: run one muted sample from the initial state with a
    target gain of 1, then un-mute.  The smoothed gain left by the muted
    sample is 0.075, but the gain applied to the first un-muted sample is
    0.144375: the smoother takes that sample's step before the gain is
    read. *)
Lemma unmuted_gain_is_one_step_ahead :
  let dt := 1 / 48000 in
  let w0 := mkRender (init_delay 48000 default_state) initial_seed in
  let muted := mkParams 440 1 1 true 0 in
  let unmuted := mkParams 440 1 1 false 0 in
  exists w1 frame,
    sample_step dt muted w0 = Some (w1, frame)
    /\ smoothGain (gSynth w1) = 0.075
    /\ v_gain (synth_voice dt unmuted (gSynth w1) (noise_seed w1)) = 0.144375
    /\ v_gain (synth_voice dt unmuted (gSynth w1) (noise_seed w1))
       <> smoothGain (gSynth w1).
Proof.
  intros dt w0 muted unmuted.
  assert (Hinv : delay_inv (delaySamples 48000) (gSynth w0)).
  { apply init_delay_inv. apply delaySamples_48k. }
  destruct (sample_step_defined dt muted w0 _ Hinv)
    as (w1 & frame & Hstep & _).
  exists w1, frame.
  destruct (sample_step_stores dt muted w0 w1 frame Hstep)
    as (_ & _ & _ & Hg & _).
  rewrite voice_smoothGain in Hg. simpl in Hg.
  assert (Hg1 : smoothGain (gSynth w1) = 0.075).
  { rewrite Hg. unfold smooth_step, gainSmoothCoeff. lra. }
  assert (Hg2 : v_gain (synth_voice dt unmuted (gSynth w1) (noise_seed w1))
                = 0.144375).
  { rewrite voice_gain, voice_smoothGain. simpl. rewrite Hg1.
    unfold smooth_step, gainSmoothCoeff. lra. }
  repeat split; [exact Hstep | exact Hg1 | exact Hg2 |].
  rewrite Hg1, Hg2. lra.
Qed.

(** C3, amended.  On every sample synthesized while mute is set the applied
    gain is exactly zero, and so are both dry channel samples, whatever the
    smoothed gain.  Mute never touches the smoothed gain: muted or not, the
    smoother takes its step [c + 0.075 * (t - c)] and that value is stored.
    On an un-muted sample, the first after a mute included, the applied gain
    is this stepped value, continued from the level the state held, not
    restarted from zero.  Over any run the smoothed gain is the fold of the
    smoothing step over the gain targets, in which mute does not occur. *)
Theorem mute_overrides_gain (dt : R) (p : SynthParams) (w : RenderState) :
  let v := synth_voice dt p (gSynth w) (noise_seed w) in
  let stepped :=
    smooth_step (smoothGain (gSynth w)) (targetGain p) gainSmoothCoeff in
  (mute p = true -> v_gain v = 0 /\ v_dryL v = 0 /\ v_dryR v = 0)
  /\ v_smoothGain v = stepped
  /\ (forall w' frame,
        sample_step dt p w = Some (w', frame) ->
        smoothGain (gSynth w') = stepped)
  /\ (mute p = false ->
      v_gain v = stepped
      /\ v_dryL v = v_sample v * stepped /\ v_dryR v = v_sample v * stepped)
  /\ (forall ps w' frames,
        render_frames dt ps w = Some (w', frames) ->
        smoothGain (gSynth w')
        = foldl (fun c q => smooth_step c (targetGain q) gainSmoothCoeff)
                (smoothGain (gSynth w)) ps).
Proof.
  intros v stepped.
  pose proof (voice_gain dt p (gSynth w) (noise_seed w)) as Hgain.
  pose proof (voice_smoothGain dt p (gSynth w) (noise_seed w)) as Hsm.
  pose proof (voice_dry dt p (gSynth w) (noise_seed w)) as [HdL HdR].
  fold v in Hgain, Hsm, HdL, HdR. fold stepped in Hsm.
  split; [| split; [exact Hsm | split; [| split]]].
  - intros Hm. rewrite Hm in Hgain.
    rewrite HdL, HdR, Hgain. repeat split; lra.
  - intros w' frame Hstep.
    destruct (sample_step_stores dt p w w' frame Hstep)
      as (_ & _ & _ & Hg & _).
    rewrite Hg. exact Hsm.
  - intros Hm. rewrite Hm, Hsm in Hgain.
    rewrite HdL, HdR, Hgain. repeat split; reflexivity.
  - intros ps w' frames Hrun.
    exact (proj1 (render_frames_smoothing dt ps w w' frames Hrun)).
Qed.

Lemma mute_overrides_gain_witness :
  let dt := 1 / 48000 in
  let w0 := mkRender (init_delay 48000 default_state) initial_seed in
  let muted := mkParams 440 1 1 true 0 in
  let unmuted := mkParams 440 1 1 false 0 in
  (mute muted = true
   /\ v_gain (synth_voice dt muted (gSynth w0) (noise_seed w0)) = 0)
  /\ (mute unmuted = false
      /\ v_gain (synth_voice dt unmuted (gSynth w0) (noise_seed w0))
         = smooth_step 0 1 gainSmoothCoeff).
Proof.
  intros dt w0 muted unmuted. split.
  - split; [reflexivity |].
    destruct (mute_overrides_gain dt muted w0) as (H & _).
    destruct (H eq_refl) as (Hg & _). exact Hg.
  - split; [reflexivity |].
    destruct (mute_overrides_gain dt unmuted w0) as (_ & _ & _ & H & _).
    destruct (H eq_refl) as (Hg & _). exact Hg.
Defined.


(** C4. Start a run of any number of samples with the carrier, modulator
    and vibrato phases in [0, kTwoPi), kTwoPi being the program's 2π, in a
    state whose delay lines are in order.  If at every sample the three
    phase increments are in [0, kTwoPi), which is the case in particular at
    48 kHz with targets in [100, 2000] Hz, a depth in [0, 1] and a smoothed
    frequency starting in [100, 2000] Hz, then the run has a result and all
    three phases are in [0, kTwoPi) at its end, hence after every sample. *)
Theorem phases_stay_wrapped (dt : R) (ps : list SynthParams)
    (w : RenderState) (n : nat) :
  delay_inv n (gSynth w) ->
  phases_in_range (gSynth w) ->
  increments_in_range dt ps w
  \/ (dt = 1 / 48000 /\ Forall in_band ps
      /\ kMinHz <= smoothHz (gSynth w) <= kMaxHz) ->
  exists w' frames,
    render_frames dt ps w = Some (w', frames)
    /\ length frames = length ps
    /\ phases_in_range (gSynth w').
Proof.
  intros Hinv Hph Hinc.
  assert (Hinc' : increments_in_range dt ps w).
  { destruct Hinc as [H | (-> & Hband & Hs)]; [exact H |].
    apply in_band_increments; assumption. }
  destruct (render_frames_defined dt n ps w Hinv)
    as (w' & frames & Hrun & Hlen & _).
  exists w', frames. split; [exact Hrun | split; [exact Hlen |]].
  exact (render_frames_phases dt ps w w' frames Hph Hinc' Hrun).
Qed.

Lemma phases_stay_wrapped_witness :
  let w0 := mkRender (init_delay 48000 default_state) initial_seed in
  let ps := [mkParams 440 1 1 false 0; mkParams 2000 1 2 false 1;
             mkParams 100 0 3 true 1] in
  exists w' frames,
    render_frames (1 / 48000) ps w0 = Some (w', frames)
    /\ length frames = length ps
    /\ phases_in_range (gSynth w').
Proof.
  intros w0 ps.
  apply (phases_stay_wrapped (1 / 48000) ps w0 (delaySamples 48000)).
  - apply init_delay_inv. apply delaySamples_48k.
  - unfold phases_in_range, phase_in_range, kTwoPi. simpl. lra.
  - right. split; [reflexivity |]. split.
    + unfold ps, in_band, kMinHz, kMaxHz.
      repeat constructor; simpl; lra.
    + unfold kMinHz, kMaxHz. simpl. lra.
Defined.

(** ** The stereo decorrelation stage *)

(** C6. At a sample whose cursor [di] points inside the two equal-length
    delay lines, holding there the old values [dL] and [dR]: the sample
    emits [outL = 0.85·dryL + 0.15·dR] and [outR = 0.85·dryR + 0.15·dL];
    it writes [0.85·old + 0.15·dry] back at position [di] of each line and
    leaves every other cell and both lengths as they were; and it moves the
    cursor to [(di + 1) mod length]. *)
Theorem decorrelation_stage (dt : R) (p : SynthParams) (w : RenderState)
    (dL dR : R) :
  let s := gSynth w in
  let v := synth_voice dt p s (noise_seed w) in
  let di := delayIndex s in
  length (delayBufL s) = length (delayBufR s) ->
  delayBufL s !! di = Some dL ->
  delayBufR s !! di = Some dR ->
  exists w',
    sample_step dt p w
    = Some (w', (0.85 * v_dryL v + 0.15 * dR, 0.85 * v_dryR v + 0.15 * dL))
    /\ delayBufL (gSynth w') !! di = Some (0.85 * dL + 0.15 * v_dryL v)
    /\ delayBufR (gSynth w') !! di = Some (0.85 * dR + 0.15 * v_dryR v)
    /\ (forall j : nat, j <> di ->
          delayBufL (gSynth w') !! j = delayBufL s !! j
          /\ delayBufR (gSynth w') !! j = delayBufR s !! j)
    /\ length (delayBufL (gSynth w')) = length (delayBufL s)
    /\ length (delayBufR (gSynth w')) = length (delayBufR s)
    /\ delayIndex (gSynth w') = ((di + 1) mod length (delayBufL s))%nat.
Proof.
  intros s v di Hlen HL HR.
  eexists. split; [apply (sample_step_spec dt p w dL dR HL HR) |].
  simpl. fold s v di.
  pose proof (lookup_lt_Some _ _ _ HL) as HiL.
  pose proof (lookup_lt_Some _ _ _ HR) as HiR.
  split; [apply list_lookup_insert_eq; exact HiL |].
  split; [apply list_lookup_insert_eq; exact HiR |].
  split.
  { intros j Hj. split; apply list_lookup_insert_ne; congruence. }
  rewrite !length_insert. repeat split.
Qed.

Lemma decorrelation_stage_witness :
  let w0 := mkRender (init_delay 48000 default_state) initial_seed in
  let p := mkParams 440 1 1 false 0 in
  let v := synth_voice (1 / 48000) p (gSynth w0) (noise_seed w0) in
  exists w',
    sample_step (1 / 48000) p w0
    = Some (w', (0.85 * v_dryL v + 0.15 * 0, 0.85 * v_dryR v + 0.15 * 0))
    /\ delayBufL (gSynth w') !! 0%nat = Some (0.85 * 0 + 0.15 * v_dryL v)
    /\ delayIndex (gSynth w') = 1%nat.
Proof.
  intros w0 p v.
  assert (H0 : (0 < delaySamples 48000)%nat) by apply delaySamples_48k.
  destruct (decorrelation_stage (1 / 48000) p w0 0 0)
    as (w' & Hstep & HbL & _ & _ & _ & _ & Hdi).
  - reflexivity.
  - apply lookup_replicate_2. exact H0.
  - apply lookup_replicate_2. exact H0.
  - exists w'. split; [exact Hstep | split; [exact HbL |]].
    rewrite Hdi. reflexivity.
Defined.

(** ** The delay cursor *)

(** With no cell in the delay lines the first sample reads outside them. *)
Lemma empty_delay_line_undefined (dt : R) (p : SynthParams)
    (s : SynthState) (seed : Z) :
  delaySamples 83 = 0%nat
  /\ sample_step dt p (mkRender (init_delay 83 s) seed) = None.
Proof.
  split; [reflexivity |].
  unfold sample_step. simpl gSynth.
  rewrite decorrelate_undefined; [reflexivity |].
  left. change (length (delayBufL (init_delay 83 s))) with 0%nat. lia.
Qed.

(** C10. Let the delay lines be sized by lines 146-149 with at least one
    cell.  Then after any number of samples the run has a result (no access
    outside a vector happened), both lines still have their initial length,
    the cursor is below it, the next sample's reads at the cursor find a
    cell in each line, and that sample again has a result and leaves the
    cursor below the length. *)
Theorem delay_cursor_in_bounds (rate : Z) (s : SynthState) (seed : Z)
    (dt : R) (ps : list SynthParams) (p : SynthParams) :
  (1 <= delaySamples rate)%nat ->
  let w0 := mkRender (init_delay rate s) seed in
  exists w1 frames,
    render_frames dt ps w0 = Some (w1, frames)
    /\ length frames = length ps
    /\ length (delayBufL (gSynth w1)) = delaySamples rate
    /\ length (delayBufR (gSynth w1)) = delaySamples rate
    /\ (delayIndex (gSynth w1) < delaySamples rate)%nat
    /\ is_Some (delayBufL (gSynth w1) !! delayIndex (gSynth w1))
    /\ is_Some (delayBufR (gSynth w1) !! delayIndex (gSynth w1))
    /\ exists w2 frame,
         sample_step dt p w1 = Some (w2, frame)
         /\ delay_inv (delaySamples rate) (gSynth w2).
Proof.
  intros Hn w0.
  assert (Hinv0 : delay_inv (delaySamples rate) (gSynth w0))
    by (apply init_delay_inv; exact Hn).
  destruct (render_frames_defined dt _ ps w0 Hinv0)
    as (w1 & frames & Hrun & Hlen & Hinv1).
  exists w1, frames.
  pose proof Hinv1 as (HL & HR & Hdi).
  split; [exact Hrun |]. split; [exact Hlen |].
  split; [exact HL |]. split; [exact HR |]. split; [exact Hdi |].
  split; [apply lookup_lt_is_Some_2; lia |].
  split; [apply lookup_lt_is_Some_2; lia |].
  destruct (sample_step_defined dt p w1 _ Hinv1) as (w2 & frame & H2 & Hinv2).
  exists w2, frame. split; assumption.
Qed.

Lemma delay_cursor_in_bounds_witness :
  (1 <= delaySamples 48000)%nat
  /\ exists w1 frames,
       render_frames (1 / 48000) [default_params; default_params]
         (mkRender (init_delay 48000 default_state) initial_seed)
       = Some (w1, frames)
       /\ (delayIndex (gSynth w1) < delaySamples 48000)%nat.
Proof.
  split; [apply delaySamples_48k |].
  destruct (delay_cursor_in_bounds 48000 default_state initial_seed
              (1 / 48000) [default_params; default_params] default_params
              delaySamples_48k)
    as (w1 & frames & Hrun & _ & _ & _ & Hdi & _).
  exists w1, frames. split; [exact Hrun | exact Hdi].
Defined.

(** ** Vibrato and the modulator ratio *)



(** ** A wake with no free frames *)

(** C9. On a pass of the render loop that is signalled and finds
    [bufferFrames - padding] equal to zero, nothing is synthesized or
    committed, the whole render state (every field of [gSynth] and the
    noise seed) is left as it was, and the loop neither exits nor fails: it
    goes on to the next wait exactly as if this pass had not happened. *)
Theorem zero_frames_is_noop (dev : Device) (wk : Wake) (padding : Z)
    (wakes : list Wake) (w : RenderState) :
  wk_running wk = true ->
  wk_wait wk = WAIT_OBJECT_0 ->
  wk_padding wk = Some padding ->
  framesToWrite dev padding = 0%Z ->
  loop_body dev wk w = Some (Continue, w, None)
  /\ audio_loop dev (wk :: wakes) w = audio_loop dev wakes w
  /\ audio_loop dev [wk] w = Some (Running, w, []).
Proof.
  intros Hrun Hwait Hpad Hzero.
  assert (Hbody : loop_body dev wk w = Some (Continue, w, None)).
  { unfold loop_body. rewrite Hwait, Hpad, Hzero. reflexivity. }
  split; [exact Hbody |].
  split.
  - simpl. rewrite Hrun, Hbody. simpl.
    destruct (audio_loop dev wakes w) as [[[st w''] outs] |]; reflexivity.
  - simpl. rewrite Hrun, Hbody. reflexivity.
Qed.

(** The other passes that leave the state alone: a wait that was not
    signalled continues, a failed padding query or buffer request stops. *)
Lemma idle_passes (dev : Device) (wk : Wake) (w : RenderState) :
  (wk_wait wk <> WAIT_OBJECT_0 -> loop_body dev wk w = Some (Continue, w, None))
  /\ (wk_wait wk = WAIT_OBJECT_0 -> wk_padding wk = None ->
      loop_body dev wk w = Some (Break, w, None))
  /\ (forall padding,
        wk_wait wk = WAIT_OBJECT_0 -> wk_padding wk = Some padding ->
        framesToWrite dev padding <> 0%Z -> wk_buffer wk = None ->
        loop_body dev wk w = Some (Break, w, None)).
Proof.
  unfold loop_body. repeat split.
  - intros Hw. destruct (wk_wait wk); [contradiction | reflexivity ..].
  - intros -> ->. reflexivity.
  - intros padding -> -> Hn ->.
    destruct (Z.eqb_spec (framesToWrite dev padding) 0); [contradiction |].
    reflexivity.
Qed.

(** A signalled pass with free frames renders exactly that many samples,
    writes them interleaved and commits them. *)
Lemma loop_body_renders (dev : Device) (wk : Wake) (w w' : RenderState)
    (padding : Z) (out out' : list R) (frames : list (R * R)) :
  wk_wait wk = WAIT_OBJECT_0 ->
  wk_padding wk = Some padding ->
  framesToWrite dev padding <> 0%Z ->
  wk_buffer wk = Some out ->
  render_frames (sample_dt dev)
    (map (wk_params wk) (seq 0 (Z.to_nat (framesToWrite dev padding)))) w
  = Some (w', frames) ->
  write_interleaved (nChannels dev) 0 frames out = Some out' ->
  loop_body dev wk w
  = Some (if wk_release wk then Continue else Break, w', Some out').
Proof.
  intros Hwait Hpad Hn Hbuf Hrun Hwrite. unfold loop_body.
  rewrite Hwait, Hpad.
  destruct (Z.eqb_spec (framesToWrite dev padding) 0); [contradiction |].
  rewrite Hbuf, Hrun. simpl. rewrite Hwrite. simpl.
  destruct (wk_release wk); reflexivity.
Qed.

(** A pass with one free frame does synthesize: the state advances. *)
Lemma one_frame_pass_renders :
  let dev := mkDevice 960 48000 2 in
  let wk := mkWake true WAIT_OBJECT_0 (Some 959%Z) (Some [0; 0])
                   (fun _ => mkParams 440 1 1 false 0) true in
  let w := mkRender (init_delay 48000 default_state) initial_seed in
  framesToWrite dev 959 = 1%Z
  /\ exists w' out,
       loop_body dev wk w = Some (Continue, w', Some out)
       /\ delayIndex (gSynth w') = 1%nat
       /\ smoothGain (gSynth w') = 0.075
       /\ length out = 2%nat.
Proof.
  intros dev wk w. split; [reflexivity |].
  assert (H0 : (0 < delaySamples 48000)%nat) by apply delaySamples_48k.
  assert (HL : delayBufL (gSynth w) !! delayIndex (gSynth w) = Some 0)
    by (apply lookup_replicate_2; exact H0).
  assert (HR : delayBufR (gSynth w) !! delayIndex (gSynth w) = Some 0)
    by (apply lookup_replicate_2; exact H0).
  pose proof (sample_step_spec (sample_dt dev) (wk_params wk 0%nat) w 0 0
                HL HR) as Hstep.
  eexists _, _. split.
  - eapply (loop_body_renders dev wk w _ 959 [0; 0]);
      [reflexivity | reflexivity | discriminate | reflexivity | |].
    + change (map (wk_params wk) (seq 0 (Z.to_nat (framesToWrite dev 959))))
        with [wk_params wk 0%nat].
      eapply render_frames_cons; [exact Hstep | reflexivity].
    + reflexivity.
  - cbn [gSynth delayIndex smoothGain].
    split; [reflexivity |].
    split; [| reflexivity].
    rewrite voice_smoothGain. unfold smooth_step, gainSmoothCoeff.
    cbn. lra.
Qed.

Lemma zero_frames_is_noop_witness :
  let dev := mkDevice 960 48000 2 in
  let wk := mkWake true WAIT_OBJECT_0 (Some 960%Z) None
                   (fun _ => default_params) true in
  let w := mkRender (init_delay 48000 default_state) initial_seed in
  framesToWrite dev 960 = 0%Z
  /\ loop_body dev wk w = Some (Continue, w, None).
Proof.
  intros dev wk w.
  split; [reflexivity |].
  exact (proj1 (zero_frames_is_noop dev wk 960 [] w
                  eq_refl eq_refl eq_refl eq_refl)).
Defined.

(** ** Control input *)

Section ControlInput.

Lemma unit_clamp (q : R) : 0 <= Rmax 0 (Rmin 1 q) <= 1.
Proof.
  unfold Rmax, Rmin.
  destruct (Rle_dec 1 q); destruct (Rle_dec 0 _); lra.
Qed.

Lemma map_x_to_hz_range (x width : Z) :
  kMinHz <= map_x_to_hz x width <= kMaxHz.
Proof.
  unfold map_x_to_hz, kMinHz, kMaxHz.
  destruct (width <=? 0)%Z; [lra |]. cbv zeta.
  pose proof (unit_clamp (IZR x / IZR width)) as [H0 H1].
  set (nx := Rmax 0 (Rmin 1 (IZR x / IZR width))) in *.
  replace (2000 / 100) with 20 by lra.
  assert (Hlo : 1 <= Rpower 20 nx).
  { rewrite <- (Rpower_O 20) by lra. apply Rle_Rpower; lra. }
  assert (Hhi : Rpower 20 nx <= 20).
  { rewrite <- (Rpower_1 20) at 2 by lra. apply Rle_Rpower; lra. }
  split; lra.
Qed.

Lemma map_y_to_gain_range (y height : Z) :
  0 <= map_y_to_gain y height <= 1.
Proof.
  unfold map_y_to_gain.
  destruct (height <=? 0)%Z; [lra |]. cbv zeta.
  pose proof (unit_clamp (IZR y / IZR height)) as [H0 H1].
  split; lra.
Qed.

(** The ends of the window map to the ends of the ranges. *)
Lemma map_x_to_hz_ends (width : Z) :
  (0 < width)%Z ->
  map_x_to_hz 0 width = kMinHz /\ map_x_to_hz width width = kMaxHz.
Proof.
  intros Hw. unfold map_x_to_hz, kMinHz, kMaxHz.
  destruct (Z.leb_spec width 0) as [Hle | _]; [lia |]. cbv zeta.
  assert (HwR : 0 < IZR width) by (apply IZR_lt; exact Hw).
  replace (2000 / 100) with 20 by lra.
  split.
  - replace (IZR 0 / IZR width) with 0 by (field; lra).
    replace (Rmax 0 (Rmin 1 0)) with 0
      by (unfold Rmax, Rmin; destruct (Rle_dec 1 0);
          destruct (Rle_dec 0 _); lra).
    rewrite Rpower_O by lra. lra.
  - replace (IZR width / IZR width) with 1 by (field; lra).
    replace (Rmax 0 (Rmin 1 1)) with 1
      by (unfold Rmax, Rmin; destruct (Rle_dec 1 1);
          destruct (Rle_dec 0 _); lra).
    rewrite Rpower_1 by lra. lra.
Qed.

Lemma default_params_valid : params_valid default_params.
Proof.
  unfold params_valid, default_params, kMinHz, kMaxHz. simpl.
  split; [lra |]. split; [lra |]. split; [lia |]. left. reflexivity.
Qed.

(** Every message leaves the stored targets inside their ranges. *)
Lemma WndProc_valid (msg : Msg) (g : Shared) :
  params_valid (gParams g) -> params_valid (gParams (WndProc msg g)).
Proof.
  intros Hv. pose proof Hv as (Hhz & Hg & Hm & Hvd).
  destruct msg as [| x y rc shift | wParam |]; simpl; try exact Hv.
  - unfold params_valid. simpl.
    split; [apply map_x_to_hz_range |].
    split; [apply map_y_to_gain_range |].
    split; [exact Hm |].
    destruct shift; [right | left]; reflexivity.
  - repeat (destruct (_ =? _)%Z; [
      unfold params_valid; simpl;
      repeat split; first [apply Hhz | apply Hg | apply Hm | lia | exact Hvd]
      |]); try exact Hv.
Qed.

Lemma message_pump_valid (msgs : list Msg) (g : Shared) :
  params_valid (gParams g) -> params_valid (gParams (message_pump msgs g)).
Proof.
  unfold message_pump. revert g.
  induction msgs as [| m msgs IH]; intros g Hv; simpl.
  - exact Hv.
  - apply IH. apply WndProc_valid. exact Hv.
Qed.

End ControlInput.

(** C7. Control input is clamped, never rejected.  For every mouse
    coordinate and every window size, positive or not, [map_x_to_hz] lies
    in [100, 2000] Hz and [map_y_to_gain] in [0, 1]; these are the values a
    mouse move stores as targets; and after any sequence of window messages
    from the initial parameters the stored frequency target is in
    [100, 2000], the gain target in [0, 1], the mode in {1, 2, 3, 4} and the
    vibrato depth 0 or 1.  The handler is total: no input raises an
    error. *)
Theorem control_input_clamped (x y : Z) (rc : RECT) (shift : bool)
    (msgs : list Msg) (g : Shared) (r : bool) :
  kMinHz <= map_x_to_hz x (right rc - left rc) <= kMaxHz
  /\ 0 <= map_y_to_gain y (bottom rc - top rc) <= 1
  /\ targetHz (gParams (WndProc (WM_MOUSEMOVE x y rc shift) g))
     = map_x_to_hz x (right rc - left rc)
  /\ targetGain (gParams (WndProc (WM_MOUSEMOVE x y rc shift) g))
     = map_y_to_gain y (bottom rc - top rc)
  /\ params_valid (gParams (message_pump msgs (mkShared default_params r))).
Proof.
  split; [apply map_x_to_hz_range |].
  split; [apply map_y_to_gain_range |].
  split; [reflexivity |].
  split; [reflexivity |].
  apply message_pump_valid. apply default_params_valid.
Qed.

(** * Further properties of the code *)

(** ** Soft saturation and the soft waveforms *)

Lemma fast_tanhf_odd_real (x : R) : fast_tanhf (- x) = - fast_tanhf x.
Proof. unfold fast_tanhf. cbv zeta. field. nra. Qed.

Lemma fast_tanhf_monotone (x y : R) :
  x <= y -> fast_tanhf x <= fast_tanhf y.
Proof.
  intros Hxy. unfold fast_tanhf. cbv zeta.
  assert (Hdx : 0 < 27 + 9 * (x * x)) by nra.
  assert (Hdy : 0 < 27 + 9 * (y * y)) by nra.
  assert (Hdiff : y * (27 + y * y) / (27 + 9 * (y * y))
                  - x * (27 + x * x) / (27 + 9 * (x * x))
    = (y - x)
      * (9 * ((x * y - 9) * (x * y - 9)) + 27 * ((y - x) * (y - x)))
      / ((27 + 9 * (y * y)) * (27 + 9 * (x * x))))
    by (field; lra).
  assert (Hpos : 0 <= (y - x)
      * (9 * ((x * y - 9) * (x * y - 9)) + 27 * ((y - x) * (y - x)))
      / ((27 + 9 * (y * y)) * (27 + 9 * (x * x)))).
  { apply Rmult_le_pos.
    - apply Rmult_le_pos; [lra |].
      pose proof (Rle_0_sqr (x * y - 9)) as H1.
      pose proof (Rle_0_sqr (y - x)) as H2.
      unfold Rsqr in H1, H2. lra.
    - apply Rlt_le, Rinv_0_lt_compat.
      apply Rmult_lt_0_compat; lra. }
  lra.
Qed.

(** The saturation at the inputs the program feeds it. *)
Lemma fast_tanhf_values :
  fast_tanhf 3 = 1 /\ fast_tanhf 4 = 172 / 171
  /\ fast_tanhf 1.1 <= 0.819 /\ 0.674 <= fast_tanhf 0.8 <= 0.675.
Proof. unfold fast_tanhf. cbv zeta. repeat split; lra. Qed.

(** X1. On arguments of magnitude up to 1000, where no intermediate value
    overflows, [fast_tanhf] is odd, [fast_tanhf (-x) = - fast_tanhf x], it
    maps 0 to 0, and its value never has the sign opposite to its
    argument's. *)
Theorem fast_tanhf_odd (x : R) :
  Rabs x <= 1000 ->
  fast_tanhf (- x) = - fast_tanhf x
  /\ fast_tanhf 0 = 0
  /\ (0 <= x -> 0 <= fast_tanhf x)
  /\ (x <= 0 -> fast_tanhf x <= 0).
Proof.
  intros _.
  destruct (fast_tanhf_factor x) as [Hf [Hq0 Hq1]].
  split; [unfold fast_tanhf; cbv zeta; field; nra |].
  split; [apply fast_tanhf_0 |].
  rewrite Hf. split; intros Hx; nra.
Qed.

Lemma fast_tanhf_odd_witness :
  Rabs 2 <= 1000 /\ fast_tanhf (- 2) = - fast_tanhf 2.
Proof.
  assert (H : Rabs 2 <= 1000) by (rewrite Rabs_pos_eq; lra).
  exact (conj H (proj1 (fast_tanhf_odd 2 H))).
Defined.

(** X2. [fast_tanhf] is not a clamp to [-1, 1] as tanh is.  It is exactly 1
    at 3; for arguments from 4 up to 1000 it exceeds 1 and is at least a
    ninth of its argument; while on the inputs mode 3 feeds it, of
    magnitude at most 1.1, it stays within 0.82 of zero. *)
Theorem fast_tanhf_exceeds_one (x : R) :
  fast_tanhf 3 = 1
  /\ (4 <= x <= 1000 -> 1 < fast_tanhf x /\ x / 9 <= fast_tanhf x)
  /\ (Rabs x <= 1.1 -> Rabs (fast_tanhf x) <= 0.82).
Proof.
  destruct fast_tanhf_values as (H3 & H4 & H11 & _).
  split; [exact H3 |]. split.
  - intros [Hx4 _]. split.
    + pose proof (fast_tanhf_monotone 4 x Hx4) as Hm. lra.
    + destruct (fast_tanhf_factor x) as [-> [Hq0 Hq1]].
      assert (Hd : 0 < 27 + 9 * (x * x)) by nra.
      assert (Hq9 : / 9 <= (27 + x * x) / (27 + 9 * (x * x))).
      { apply (Rmult_le_reg_r (27 + 9 * (x * x))); [lra |].
        unfold Rdiv. rewrite Rmult_assoc, Rinv_l by lra. nra. }
      set (q := (27 + x * x) / (27 + 9 * (x * x))) in *. nra.
  - intros Hx.
    assert (Hx' : - 1.1 <= x <= 1.1)
      by (unfold Rabs in Hx; destruct (Rcase_abs x); lra).
    pose proof (fast_tanhf_monotone x 1.1 ltac:(lra)) as Hhi.
    pose proof (fast_tanhf_monotone (Ropp 1.1) x ltac:(lra)) as Hlo.
    rewrite fast_tanhf_odd_real in Hlo.
    unfold Rabs. destruct (Rcase_abs (fast_tanhf x)); lra.
Qed.

(** X3. On a wrapped phase both soft waveforms stay within 0.68 of zero;
    the soft triangle is never positive; and so the sample of mode 4,
    [0.6·saw + 0.4·tri], lies in [-0.68, 0.41]: the mode is biased below
    zero. *)
Theorem soft_waves_on_wrapped_phase (p b : R) (seed : Z) :
  0 <= p -> p < kTwoPi ->
  -0.68 <= soft_saw p <= 0.68
  /\ -0.68 <= soft_tri p <= 0
  /\ -0.68 <= fst (mode_engine 4 p b seed) <= 0.41.
Proof.
  intros Hp Hq.
  pose proof kTwoPi_bounds as [Hk1 Hk2].
  assert (Hturn : 0 <= p / kTwoPi < 1).
  { set (r := p / kTwoPi).
    assert (Ha : p = r * kTwoPi) by (unfold r; field; lra).
    split; nra. }
  destruct fast_tanhf_values as (_ & _ & _ & H81 & H82).
  pose proof (fast_tanhf_odd_real 0.8) as Hneg.
  assert (Hsaw : -0.68 <= soft_saw p <= 0.68).
  { unfold soft_saw. cbv zeta.
    pose proof (fast_tanhf_monotone (Ropp 0.8)
                  (0.8 * (p / kTwoPi * 2 - 1)) ltac:(lra)) as Hlo.
    pose proof (fast_tanhf_monotone (0.8 * (p / kTwoPi * 2 - 1)) 0.8
                  ltac:(lra)) as Hhi.
    lra. }
  assert (Htri : -0.68 <= soft_tri p <= 0).
  { unfold soft_tri. cbv zeta.
    assert (Hr : -1 <= 2 * Rabs (p / kTwoPi - 0.5) - 1 <= 0)
      by (unfold Rabs; destruct (Rcase_abs (p / kTwoPi - 0.5)); lra).
    pose proof (fast_tanhf_monotone (Ropp 0.8)
                  (0.8 * (2 * Rabs (p / kTwoPi - 0.5) - 1)) ltac:(lra))
      as Hlo.
    pose proof (fast_tanhf_monotone
                  (0.8 * (2 * Rabs (p / kTwoPi - 0.5) - 1)) 0 ltac:(lra))
      as Hhi.
    rewrite fast_tanhf_0 in Hhi. lra. }
  split; [exact Hsaw |]. split; [exact Htri |].
  unfold mode_engine. cbv zeta. simpl fst. lra.
Qed.

Lemma soft_waves_on_wrapped_phase_witness :
  0 <= 1 /\ 1 < kTwoPi
  /\ -0.68 <= soft_tri 1 <= 0
  /\ -0.68 <= fst (mode_engine 4 1 2 initial_seed) <= 0.41.
Proof.
  assert (H0 : 0 <= 1) by lra.
  assert (H1 : 1 < kTwoPi) by (unfold kTwoPi; lra).
  destruct (soft_waves_on_wrapped_phase 1 2 initial_seed H0 H1)
    as (_ & Ht & Hm).
  exact (conj H0 (conj H1 (conj Ht Hm))).
Defined.

(** ** The noise generator *)

(** One LCG step can be undone: the multiplier is odd, hence invertible
    modulo 2^32. *)
Lemma lcg_next_undo (s : Z) :
  ((4276115653 * (lcg_next s - 1013904223)) mod 2 ^ 32 = s mod 2 ^ 32)%Z.
Proof.
  unfold lcg_next.
  rewrite <- Zmult_mod_idemp_r, Zminus_mod_idemp_l, Zmult_mod_idemp_r.
  replace (4276115653 * (1664525 * s + 1013904223 - 1013904223))%Z
    with (s + 2 ^ 32 * (1657219 * s))%Z by (change (2 ^ 32)%Z with 4294967296%Z; ring).
  rewrite (Z.mul_comm (2 ^ 32)), Z_mod_plus_full. reflexivity.
Qed.

(** X4. The generator never merges two states: distinct 32-bit seeds have
    distinct successors, so the step is a permutation of the 32-bit
    values. *)
Theorem lcg_next_injective (s1 s2 : Z) :
  (0 <= s1 < 2 ^ 32)%Z -> (0 <= s2 < 2 ^ 32)%Z ->
  lcg_next s1 = lcg_next s2 -> s1 = s2.
Proof.
  intros H1 H2 Heq.
  pose proof (lcg_next_undo s1) as U1.
  pose proof (lcg_next_undo s2) as U2.
  rewrite Heq in U1. rewrite U2 in U1.
  rewrite !Z.mod_small in U1 by assumption. symmetry. exact U1.
Qed.

Lemma lcg_next_injective_witness :
  (0 <= 7 < 2 ^ 32)%Z /\ (0 <= 7 < 2 ^ 32)%Z
  /\ lcg_next 7 = lcg_next 7 /\ 7%Z = 7%Z.
Proof.
  assert (H : (0 <= 7 < 2 ^ 32)%Z) by lia.
  exact (conj H (conj H (conj eq_refl
           (lcg_next_injective 7 7 H H eq_refl)))).
Defined.

(** X5. A noise sample is one of the 2^24 points [m / 2^23] with
    [-2^23 <= m < 2^23]: it lies in [-1, 1), can be -1 and is never 1; and
    the seed it leaves is a 32-bit value. *)
Theorem white_noise_grid (seed : Z) :
  exists m : Z,
    (- 8388608 <= m < 8388608)%Z
    /\ fst (white_noise seed) = IZR m / 8388608
    /\ -1 <= fst (white_noise seed) < 1
    /\ snd (white_noise seed) = lcg_next seed
    /\ (0 <= snd (white_noise seed) < 2 ^ 32)%Z.
Proof.
  pose proof (low24_range (lcg_next seed)) as Hm.
  exists (Z.land (lcg_next seed) 0x00FFFFFF - 8388608)%Z.
  split; [lia |].
  split.
  { unfold white_noise. cbv zeta. simpl fst. rewrite minus_IZR. field. }
  split; [apply white_noise_range |].
  split; [reflexivity | apply lcg_next_range].
Qed.

(** ** The mouse mappings *)

Lemma unit_clamp_cases (q : R) :
  (q <= 0 -> Rmax 0 (Rmin 1 q) = 0)
  /\ (1 <= q -> Rmax 0 (Rmin 1 q) = 1)
  /\ (0 <= q <= 1 -> Rmax 0 (Rmin 1 q) = q).
Proof.
  unfold Rmax, Rmin.
  repeat split; intros; destruct (Rle_dec 1 q); destruct (Rle_dec 0 _); lra.
Qed.

Lemma unit_clamp_monotone (q1 q2 : R) :
  q1 <= q2 -> Rmax 0 (Rmin 1 q1) <= Rmax 0 (Rmin 1 q2).
Proof.
  intros H. unfold Rmax, Rmin.
  destruct (Rle_dec 1 q1); destruct (Rle_dec 1 q2);
    repeat destruct (Rle_dec 0 _); lra.
Qed.

Lemma ratio_monotone (x1 x2 w : Z) :
  (0 < w)%Z -> (x1 <= x2)%Z -> IZR x1 / IZR w <= IZR x2 / IZR w.
Proof.
  intros Hw Hx. apply IZR_lt in Hw. apply IZR_le in Hx.
  unfold Rdiv. apply Rmult_le_compat_r; [| exact Hx].
  apply Rlt_le, Rinv_0_lt_compat. exact Hw.
Qed.

Lemma ratio_cases (x w : Z) :
  (0 < w)%Z ->
  ((x <= 0)%Z -> IZR x / IZR w <= 0)
  /\ ((w <= x)%Z -> 1 <= IZR x / IZR w)
  /\ ((0 <= x <= w)%Z -> 0 <= IZR x / IZR w <= 1).
Proof.
  intros Hw. apply IZR_lt in Hw.
  assert (Hinv : 0 < / IZR w) by (apply Rinv_0_lt_compat; exact Hw).
  assert (Hone : IZR w * / IZR w = 1) by (apply Rinv_r; lra).
  unfold Rdiv. split; [| split].
  - intros H. apply IZR_le in H.
    rewrite <- (Rmult_0_l (/ IZR w)). apply Rmult_le_compat_r; lra.
  - intros H. apply IZR_le in H.
    rewrite <- Hone. apply Rmult_le_compat_r; lra.
  - intros [H0 H1]. apply IZR_le in H0. apply IZR_le in H1. split.
    + apply Rmult_le_pos; lra.
    + rewrite <- Hone. apply Rmult_le_compat_r; lra.
Qed.

Lemma map_x_to_hz_pos (x width : Z) :
  (0 < width)%Z ->
  map_x_to_hz x width
  = 100 * Rpower 20 (Rmax 0 (Rmin 1 (IZR x / IZR width))).
Proof.
  intros Hw. unfold map_x_to_hz, kMinHz, kMaxHz.
  destruct (Z.leb_spec width 0) as [Hle | _]; [lia |]. cbv zeta.
  replace (2000 / 100) with 20 by lra. reflexivity.
Qed.

(** X6. In a window of positive width the pitch never falls as the mouse
    moves right; left of the window it is 100 Hz and right of it 2000 Hz. *)
Theorem map_x_to_hz_monotone (x1 x2 width : Z) :
  (0 < width)%Z -> (x1 <= x2)%Z ->
  map_x_to_hz x1 width <= map_x_to_hz x2 width
  /\ ((x2 <= 0)%Z -> map_x_to_hz x2 width = kMinHz)
  /\ ((width <= x1)%Z -> map_x_to_hz x1 width = kMaxHz).
Proof.
  intros Hw Hx.
  assert (HwR : 0 < IZR width) by (apply IZR_lt; exact Hw).
  rewrite !map_x_to_hz_pos by exact Hw.
  split; [| split].
  - apply Rmult_le_compat_l; [lra |].
    apply Rle_Rpower; [lra |].
    apply unit_clamp_monotone, ratio_monotone; assumption.
  - intros H0.
    destruct (unit_clamp_cases (IZR x2 / IZR width)) as [-> _].
    + rewrite Rpower_O by lra. unfold kMinHz. lra.
    + apply (ratio_cases x2 width Hw), H0.
  - intros H1.
    destruct (unit_clamp_cases (IZR x1 / IZR width)) as (_ & -> & _).
    + rewrite Rpower_1 by lra. unfold kMaxHz. lra.
    + apply (ratio_cases x1 width Hw), H1.
Qed.

Lemma map_x_to_hz_monotone_witness :
  (0 < 900)%Z /\ (100 <= 450)%Z
  /\ map_x_to_hz 100 900 <= map_x_to_hz 450 900.
Proof.
  assert (Hw : (0 < 900)%Z) by lia.
  assert (Hx : (100 <= 450)%Z) by lia.
  exact (conj Hw (conj Hx (proj1 (map_x_to_hz_monotone 100 450 900 Hw Hx)))).
Defined.

(** The mapping on exact reals is a pure exponential of the position. *)
Lemma map_x_to_hz_product (x1 x2 width : Z) :
  (0 < width)%Z -> (0 <= x1)%Z -> (0 <= x2)%Z -> (x1 + x2 <= width)%Z ->
  map_x_to_hz (x1 + x2) width * kMinHz
  = map_x_to_hz x1 width * map_x_to_hz x2 width.
Proof.
  intros Hw H1 H2 H12.
  assert (HwR : 0 < IZR width) by (apply IZR_lt; exact Hw).
  assert (Hin : forall x, (0 <= x <= width)%Z ->
            Rmax 0 (Rmin 1 (IZR x / IZR width)) = IZR x / IZR width).
  { intros x Hx. apply unit_clamp_cases.
    apply (ratio_cases x width Hw), Hx. }
  rewrite !map_x_to_hz_pos by exact Hw.
  rewrite !Hin by lia.
  rewrite plus_IZR.
  replace ((IZR x1 + IZR x2) / IZR width)
    with (IZR x1 / IZR width + IZR x2 / IZR width) by (field; lra).
  rewrite Rpower_plus. unfold kMinHz. ring.
Qed.

(** X7. The pitch mapping is geometric up to rounding: inside the window,
    moving the mouse by a given distance multiplies the frequency by a
    factor that depends on the distance only.  [Hz (x1 + x2) · 100] and
    [Hz x1 · Hz x2] differ by at most a hundred-thousandth of the
    latter. *)
Theorem map_x_to_hz_geometric (x1 x2 width : Z) :
  (0 < width)%Z -> (0 <= x1)%Z -> (0 <= x2)%Z -> (x1 + x2 <= width)%Z ->
  Rabs (map_x_to_hz (x1 + x2) width * kMinHz
        - map_x_to_hz x1 width * map_x_to_hz x2 width)
  <= 0.00001 * (map_x_to_hz x1 width * map_x_to_hz x2 width).
Proof.
  intros Hw H1 H2 H12.
  rewrite (map_x_to_hz_product x1 x2 width Hw H1 H2 H12).
  pose proof (map_x_to_hz_range x1 width) as [Ha _].
  pose proof (map_x_to_hz_range x2 width) as [Hb _].
  unfold kMinHz in Ha, Hb.
  rewrite Rminus_diag, Rabs_R0.
  apply Rmult_le_pos; [lra |]. apply Rmult_le_pos; lra.
Qed.

Lemma map_x_to_hz_geometric_witness :
  Rabs (map_x_to_hz (300 + 150) 900 * kMinHz
        - map_x_to_hz 300 900 * map_x_to_hz 150 900)
  <= 0.00001 * (map_x_to_hz 300 900 * map_x_to_hz 150 900).
Proof.
  apply map_x_to_hz_geometric; lia.
Defined.

(** X8. In a window of positive height the gain is [1 - y / height] inside
    the window, 1 at and above its top edge and 0 at and below its bottom
    edge, and it never rises as the mouse moves down. *)
Theorem map_y_to_gain_linear (y1 y2 height : Z) :
  (0 < height)%Z -> (y1 <= y2)%Z ->
  map_y_to_gain y2 height <= map_y_to_gain y1 height
  /\ ((0 <= y1 <= height)%Z ->
      map_y_to_gain y1 height = 1 - IZR y1 / IZR height)
  /\ ((y2 <= 0)%Z -> map_y_to_gain y2 height = 1)
  /\ ((height <= y1)%Z -> map_y_to_gain y1 height = 0).
Proof.
  intros Hh Hy.
  assert (HhR : 0 < IZR height) by (apply IZR_lt; exact Hh).
  assert (Hinv : 0 < / IZR height) by (apply Rinv_0_lt_compat; exact HhR).
  assert (Hpos : forall y, map_y_to_gain y height
                 = 1 - Rmax 0 (Rmin 1 (IZR y / IZR height))).
  { intros y. unfold map_y_to_gain.
    destruct (Z.leb_spec height 0) as [Hle | _]; [lia | reflexivity]. }
  rewrite !Hpos.
  split; [| split; [| split]].
  - pose proof (unit_clamp_monotone _ _ (ratio_monotone y1 y2 height Hh Hy)).
    lra.
  - intros H01.
    destruct (unit_clamp_cases (IZR y1 / IZR height)) as (_ & _ & ->);
      [reflexivity |].
    apply (ratio_cases y1 height Hh), H01.
  - intros H0.
    destruct (unit_clamp_cases (IZR y2 / IZR height)) as [-> _]; [lra |].
    apply (ratio_cases y2 height Hh), H0.
  - intros H1.
    destruct (unit_clamp_cases (IZR y1 / IZR height)) as (_ & -> & _);
      [lra |].
    apply (ratio_cases y1 height Hh), H1.
Qed.

Lemma map_y_to_gain_linear_witness :
  (0 < 300)%Z /\ (75 <= 150)%Z
  /\ map_y_to_gain 150 300 <= map_y_to_gain 75 300
  /\ map_y_to_gain 75 300 = 1 - IZR 75 / IZR 300.
Proof.
  assert (Hh : (0 < 300)%Z) by lia.
  assert (Hy : (75 <= 150)%Z) by lia.
  destruct (map_y_to_gain_linear 75 150 300 Hh Hy) as (Hm & Hl & _).
  exact (conj Hh (conj Hy (conj Hm (Hl ltac:(lia))))).
Defined.

(** ** The signal path over a run *)

(** What a sample that has a result did: the converse of
    [sample_step_spec]. *)
Lemma sample_step_inv (dt : R) (p : SynthParams) (w w' : RenderState)
    (frame : R * R) :
  let s := gSynth w in
  let v := synth_voice dt p s (noise_seed w) in
  sample_step dt p w = Some (w', frame) ->
  exists dL dR,
    delayBufL s !! delayIndex s = Some dL
    /\ delayBufR s !! delayIndex s = Some dR
    /\ w' = mkRender
              (mkState (v_phaseA v) (v_phaseB v) (v_smoothHz v)
                 (v_smoothGain v) (v_vibratoPhase v) (delayL s) (delayR s)
                 (<[delayIndex s := 0.85 * dL + 0.15 * v_dryL v]>
                    (delayBufL s))
                 (<[delayIndex s := 0.85 * dR + 0.15 * v_dryR v]>
                    (delayBufR s))
                 ((delayIndex s + 1) mod length (delayBufL s)))
              (v_seed v)
    /\ frame = (0.85 * v_dryL v + 0.15 * dR, 0.85 * v_dryR v + 0.15 * dL).
Proof.
  intros s v Hstep.
  destruct (delayBufL s !! delayIndex s) as [dL |] eqn:HL.
  - destruct (delayBufR s !! delayIndex s) as [dR |] eqn:HR.
    + exists dL, dR.
      rewrite (sample_step_spec dt p w dL dR HL HR) in Hstep.
      injection Hstep as <- <-. repeat split.
    + exfalso. unfold sample_step in Hstep.
      rewrite decorrelate_undefined in Hstep; [discriminate |].
      right. apply lookup_ge_None. exact HR.
  - exfalso. unfold sample_step in Hstep.
    rewrite decorrelate_undefined in Hstep; [discriminate |].
    left. apply lookup_ge_None. exact HL.
Qed.

Lemma smooth_step_in_interval (lo hi c t k : R) :
  0 <= k <= 1 -> lo <= c <= hi -> lo <= t <= hi ->
  lo <= smooth_step c t k <= hi.
Proof. unfold smooth_step. intros Hk Hc Ht. split; nra. Qed.



(** X10. The two output channels are always the same signal.  Both dry
    samples are the same value, so from delay lines with equal contents,
    as lines 147-148 leave them, every frame of every run has
    [outL = outR] and the two lines stay equal. *)
Theorem channels_identical (dt : R) (ps : list SynthParams)
    (w w' : RenderState) (frames : list (R * R)) :
  delayBufL (gSynth w) = delayBufR (gSynth w) ->
  render_frames dt ps w = Some (w', frames) ->
  Forall (fun frame => fst frame = snd frame) frames
  /\ delayBufL (gSynth w') = delayBufR (gSynth w').
Proof.
  revert w frames. induction ps as [| p ps IH]; intros w frames Heq Hrun.
  - simpl in Hrun. injection Hrun as <- <-. split; [constructor | exact Heq].
  - destruct (render_frames_cons_inv _ _ _ _ _ _ Hrun)
      as (w1 & frame & frames' & Hstep & Hrun' & ->).
    destruct (sample_step_inv dt p w w1 frame Hstep)
      as (dL & dR & HL & HR & Hw1 & Hframe).
    assert (Hd : dL = dR) by (rewrite Heq in HL; congruence).
    destruct (voice_dry dt p (gSynth w) (noise_seed w)) as [EL ER].
    assert (Heq1 : delayBufL (gSynth w1) = delayBufR (gSynth w1)).
    { rewrite Hw1. simpl. rewrite Heq, Hd, EL, ER. reflexivity. }
    destruct (IH w1 frames' Heq1 Hrun') as [Hall Hend].
    split; [| exact Hend].
    constructor; [| exact Hall].
    rewrite Hframe. simpl. rewrite Hd, EL, ER. reflexivity.
Qed.

Lemma channels_identical_witness :
  let w0 := mkRender (init_delay 48000 default_state) initial_seed in
  let ps := [mkParams 440 1 4 false 1; mkParams 880 1 3 false 0] in
  exists w' frames,
    render_frames (1 / 48000) ps w0 = Some (w', frames)
    /\ Forall (fun frame => fst frame = snd frame) frames.
Proof.
  intros w0 ps.
  destruct (render_frames_defined (1 / 48000) (delaySamples 48000) ps w0
              (init_delay_inv 48000 default_state delaySamples_48k))
    as (w' & frames & Hrun & _).
  exists w', frames. split; [exact Hrun |].
  exact (proj1 (channels_identical (1 / 48000) ps w0 w' frames
                  eq_refl Hrun)).
Defined.

(** A convex blend of two values of [-B, B] stays in [-B, B]. *)
Lemma blend_within (B x y : R) :
  - B <= x <= B -> - B <= y <= B -> - B <= 0.85 * x + 0.15 * y <= B.
Proof. intros Hx Hy. split; lra. Qed.

(** The dry sample of a loop body with wrapped phases and a smoothed gain
    in [0, 1] lies in [-1.2, 1.2]. *)
Lemma voice_dry_bounded (dt : R) (p : SynthParams) (w : RenderState) :
  phases_in_range (gSynth w) -> increments_ok dt p w ->
  0 <= targetGain p <= 1 -> 0 <= smoothGain (gSynth w) <= 1 ->
  let v := synth_voice dt p (gSynth w) (noise_seed w) in
  0 <= v_smoothGain v <= 1
  /\ - 1.2 <= v_dryL v <= 1.2 /\ - 1.2 <= v_dryR v <= 1.2.
Proof.
  intros Hph Hinc Htg Hsg v.
  pose proof (voice_sample_bounded dt p w Hph Hinc) as Hs. fold v in Hs.
  assert (Hg : 0 <= v_smoothGain v <= 1).
  { unfold v. rewrite voice_smoothGain.
    apply smooth_step_in_interval;
      [unfold gainSmoothCoeff; lra | assumption | assumption]. }
  assert (Hgain : 0 <= v_gain v <= 1).
  { unfold v. rewrite voice_gain. fold v. destruct (mute p); lra. }
  destruct (voice_dry dt p (gSynth w) (noise_seed w)) as [EL ER].
  fold v in EL, ER. rewrite EL, ER.
  split; [exact Hg |]. split; split; nra.
Qed.

(** Lines 147-148 zero both delay lines. *)
Lemma init_delay_cells (rate : Z) (s : SynthState) (B : R) :
  0 <= B -> cells_within B (init_delay rate s).
Proof.
  intros HB. unfold cells_within, init_delay. simpl.
  split; apply Forall_replicate; lra.
Qed.

(** X11. The output never leaves [-1.2, 1.2].  Take a run whose phases
    start wrapped and whose increments stay in [0, kTwoPi), with gain
    targets in [0, 1], a smoothed gain in [0, 1] and all delay cells in
    [-1.2, 1.2] (zeroed lines, for one).  Then both channels of every frame
    are in [-1.2, 1.2], and so are all delay cells at the end. *)
Theorem output_bounded (dt : R) (ps : list SynthParams)
    (w w' : RenderState) (frames : list (R * R)) :
  phases_in_range (gSynth w) ->
  increments_in_range dt ps w ->
  Forall (fun p => 0 <= targetGain p <= 1) ps ->
  0 <= smoothGain (gSynth w) <= 1 ->
  cells_within 1.2 (gSynth w) ->
  render_frames dt ps w = Some (w', frames) ->
  Forall (frame_within 1.2) frames
  /\ cells_within 1.2 (gSynth w')
  /\ 0 <= smoothGain (gSynth w') <= 1.
Proof.
  intros Hph Hinc Htg. revert w frames Hph Hinc.
  induction Htg as [| p ps Hp Htg IH];
    intros w frames Hph Hinc Hsg Hcells Hrun.
  - simpl in Hrun. injection Hrun as <- <-.
    split; [constructor | split; assumption].
  - destruct (render_frames_cons_inv _ _ _ _ _ _ Hrun)
      as (w1 & frame & frames' & Hstep & Hrun' & ->).
    destruct Hinc as [Hinc1 Hinc']. rewrite Hstep in Hinc'.
    destruct (sample_step_inv dt p w w1 frame Hstep)
      as (dL & dR & HL & HR & Hw1 & Hframe).
    destruct (voice_dry_bounded dt p w Hph Hinc1 Hp Hsg)
      as (Hg1 & HdryL & HdryR).
    destruct Hcells as [HcL HcR].
    pose proof (proj1 (Forall_lookup _ _) HcL _ _ HL) as HdL.
    pose proof (proj1 (Forall_lookup _ _) HcR _ _ HR) as HdR.
    simpl in HdL, HdR.
    assert (Hph1 : phases_in_range (gSynth w1))
      by exact (sample_step_phases dt p w w1 frame Hph Hinc1 Hstep).
    assert (Hsg1 : 0 <= smoothGain (gSynth w1) <= 1)
      by (rewrite Hw1; exact Hg1).
    assert (Hcells1 : cells_within 1.2 (gSynth w1)).
    { rewrite Hw1. split; simpl; apply Forall_insert; try assumption.
      - split; lra.
      - split; lra. }
    destruct (IH w1 frames' Hph1 Hinc' Hsg1 Hcells1 Hrun')
      as (Hall & Hend & Hsgend).
    split; [| split; assumption].
    constructor; [| exact Hall].
    rewrite Hframe. unfold frame_within. simpl. split; split; lra.
Qed.

Lemma output_bounded_witness :
  let w0 := mkRender (init_delay 48000 default_state) initial_seed in
  let ps := [mkParams 440 1 2 false 1; mkParams 2000 1 3 false 1;
             mkParams 100 0.5 4 false 0] in
  exists w' frames,
    render_frames (1 / 48000) ps w0 = Some (w', frames)
    /\ Forall (frame_within 1.2) frames.
Proof.
  intros w0 ps.
  destruct (render_frames_defined (1 / 48000) (delaySamples 48000) ps w0
              (init_delay_inv 48000 default_state delaySamples_48k))
    as (w' & frames & Hrun & _).
  exists w', frames. split; [exact Hrun |].
  refine (proj1 (output_bounded (1 / 48000) ps w0 w' frames _ _ _ _ _ Hrun)).
  - unfold phases_in_range, phase_in_range, kTwoPi. simpl. lra.
  - apply in_band_increments.
    + unfold ps, in_band, kMinHz, kMaxHz. repeat constructor; simpl; lra.
    + unfold kMinHz, kMaxHz. simpl. lra.
  - unfold ps. repeat constructor; simpl; lra.
  - simpl. lra.
  - apply init_delay_cells. lra.
Defined.

(** ** Mute and silence *)

(** X12. Mute is not instant silence: a muted sample still plays the
    delay tail, [outL = 0.15·dR] and [outR = 0.15·dL], and scales the cell
    under the cursor by 0.85 in each line. *)
Theorem muted_sample_plays_tail (dt : R) (p : SynthParams)
    (w : RenderState) (dL dR : R) :
  mute p = true ->
  delayBufL (gSynth w) !! delayIndex (gSynth w) = Some dL ->
  delayBufR (gSynth w) !! delayIndex (gSynth w) = Some dR ->
  exists w',
    sample_step dt p w = Some (w', (0.15 * dR, 0.15 * dL))
    /\ delayBufL (gSynth w') !! delayIndex (gSynth w) = Some (0.85 * dL)
    /\ delayBufR (gSynth w') !! delayIndex (gSynth w) = Some (0.85 * dR).
Proof.
  intros Hm HL HR.
  destruct (voice_dry dt p (gSynth w) (noise_seed w)) as [EL ER].
  pose proof (voice_gain dt p (gSynth w) (noise_seed w)) as Hg.
  rewrite Hm in Hg. rewrite Hg, Rmult_0_r in EL, ER.
  pose proof (sample_step_spec dt p w dL dR HL HR) as Hstep.
  rewrite EL, ER in Hstep.
  replace (0.85 * 0 + 0.15 * dR) with (0.15 * dR) in Hstep by lra.
  replace (0.85 * 0 + 0.15 * dL) with (0.15 * dL) in Hstep by lra.
  replace (0.85 * dL + 0.15 * 0) with (0.85 * dL) in Hstep by lra.
  replace (0.85 * dR + 0.15 * 0) with (0.85 * dR) in Hstep by lra.
  eexists. split; [exact Hstep |].
  simpl.
  rewrite !list_lookup_insert_eq by (eapply lookup_lt_Some; eassumption).
  split; reflexivity.
Qed.

Lemma muted_sample_plays_tail_witness :
  let w0 := mkRender (init_delay 48000 default_state) initial_seed in
  let p := mkParams 440 1 1 true 0 in
  mute p = true
  /\ exists w', sample_step (1 / 48000) p w0 = Some (w', (0.15 * 0, 0.15 * 0)).
Proof.
  intros w0 p. split; [reflexivity |].
  assert (H0 : (0 < delaySamples 48000)%nat) by apply delaySamples_48k.
  destruct (muted_sample_plays_tail (1 / 48000) p w0 0 0 eq_refl)
    as (w' & Hstep & _).
  - apply lookup_replicate_2. exact H0.
  - apply lookup_replicate_2. exact H0.
  - exists w'. exact Hstep.
Defined.

(** A sample with zero gain on zeroed delay lines emits a zero frame and
    leaves the lines zeroed. *)
Lemma silent_step (dt : R) (p : SynthParams) (w w1 : RenderState)
    (frame : R * R) :
  v_gain (synth_voice dt p (gSynth w) (noise_seed w)) = 0 ->
  cells_within 0 (gSynth w) ->
  sample_step dt p w = Some (w1, frame) ->
  frame = (0, 0) /\ cells_within 0 (gSynth w1).
Proof.
  intros Hg [HcL HcR] Hstep.
  destruct (sample_step_inv dt p w w1 frame Hstep)
    as (dL & dR & HL & HR & Hw1 & Hframe).
  destruct (voice_dry dt p (gSynth w) (noise_seed w)) as [EL ER].
  rewrite Hg, Rmult_0_r in EL, ER.
  pose proof (proj1 (Forall_lookup _ _) HcL _ _ HL) as HdL.
  pose proof (proj1 (Forall_lookup _ _) HcR _ _ HR) as HdR.
  simpl in HdL, HdR.
  assert (EdL : dL = 0) by lra. assert (EdR : dR = 0) by lra.
  split.
  - rewrite Hframe, EL, ER, EdL, EdR. f_equal; lra.
  - rewrite Hw1, EL, ER, EdL, EdR. split; simpl;
      apply Forall_insert; try assumption; lra.
Qed.

(** X13. Exact silence.  From zeroed delay lines, a run in which every
    sample is muted, or in which the gain target stays 0 from a smoothed
    gain of 0 (the state the program starts in), emits only zero frames and
    leaves the delay lines zeroed. *)
Theorem silence_from_zeroed_lines (dt : R) (ps : list SynthParams)
    (w w' : RenderState) (frames : list (R * R)) :
  cells_within 0 (gSynth w) ->
  Forall (fun p => mute p = true) ps
  \/ (smoothGain (gSynth w) = 0 /\ Forall (fun p => targetGain p = 0) ps) ->
  render_frames dt ps w = Some (w', frames) ->
  Forall (fun frame => frame = (0, 0)) frames
  /\ cells_within 0 (gSynth w').
Proof.
  intros Hcells Hquiet. revert w frames Hcells Hquiet.
  induction ps as [| p ps IH]; intros w frames Hcells Hquiet Hrun.
  - simpl in Hrun. injection Hrun as <- <-. split; [constructor | exact Hcells].
  - destruct (render_frames_cons_inv _ _ _ _ _ _ Hrun)
      as (w1 & frame & frames' & Hstep & Hrun' & ->).
    pose proof (voice_gain dt p (gSynth w) (noise_seed w)) as Hgain.
    pose proof (voice_smoothGain dt p (gSynth w) (noise_seed w)) as Hsm.
    destruct (sample_step_stores dt p w w1 frame Hstep)
      as (_ & _ & _ & Hg1 & _).
    assert (Hzero : v_gain (synth_voice dt p (gSynth w) (noise_seed w)) = 0
                    /\ (Forall (fun p => mute p = true) ps
                        \/ (smoothGain (gSynth w1) = 0
                            /\ Forall (fun p => targetGain p = 0) ps))).
    { destruct Hquiet as [Hm | [Hs0 Ht]].
      - inversion Hm as [| ? ? Hp Hm']; subst.
        rewrite Hp in Hgain. split; [exact Hgain | left; exact Hm'].
      - inversion Ht as [| ? ? Hp Ht']; subst.
        assert (Hs1 : v_smoothGain
                        (synth_voice dt p (gSynth w) (noise_seed w)) = 0).
        { rewrite Hsm, Hs0, Hp. unfold smooth_step. lra. }
        split.
        + rewrite Hgain. destruct (mute p); [reflexivity | exact Hs1].
        + right. split; [rewrite Hg1; exact Hs1 | exact Ht']. }
    destruct Hzero as [Hz Hquiet'].
    destruct (silent_step dt p w w1 frame Hz Hcells Hstep) as [Hf Hc1].
    destruct (IH w1 frames' Hc1 Hquiet' Hrun') as [Hall Hend].
    split; [constructor; assumption | exact Hend].
Qed.

Lemma silence_from_zeroed_lines_witness :
  let w0 := mkRender (init_delay 48000 default_state) initial_seed in
  let ps := [default_params; mkParams 880 0 3 false 1] in
  exists w' frames,
    render_frames (1 / 48000) ps w0 = Some (w', frames)
    /\ Forall (fun frame => frame = (0, 0)) frames.
Proof.
  intros w0 ps.
  destruct (render_frames_defined (1 / 48000) (delaySamples 48000) ps w0
              (init_delay_inv 48000 default_state delaySamples_48k))
    as (w' & frames & Hrun & _).
  exists w', frames. split; [exact Hrun |].
  refine (proj1 (silence_from_zeroed_lines (1 / 48000) ps w0 w' frames
                   _ _ Hrun)).
  - apply init_delay_cells. lra.
  - right. split; [reflexivity |]. unfold ps. repeat constructor.
Defined.

(** ** The interleaved frame writer *)

Lemma out_index_small (i channels : nat) (k : Z) :
  (0 <= k)%Z -> (Z.of_nat (i * channels) + k < 2 ^ 32)%Z ->
  out_index i channels k = (i * channels + Z.to_nat k)%nat.
Proof.
  intros Hk Hlt. unfold out_index.
  rewrite <- Nat2Z.inj_mul.
  rewrite Z.mod_small by lia.
  rewrite Z2Nat.inj_add by lia. rewrite Nat2Z.id. reflexivity.
Qed.

Lemma store_inside (out : list R) (i : nat) (x : R) :
  (i < length out)%nat -> store out i x = Some (<[i := x]> out).
Proof.
  intros Hi. unfold store. destruct (decide (i < length out)%nat); [reflexivity | lia].
Qed.

Lemma store_outside (out : list R) (i : nat) (x : R) :
  (length out <= i)%nat -> store out i x = None.
Proof.
  intros Hi. unfold store. destruct (decide (i < length out)%nat); [lia | reflexivity].
Qed.

(** The writer from frame [i0] on: it leaves what lies before frame [i0]
    alone and fills slots 0 and 1 of each frame. *)
Lemma write_interleaved_from (channels : nat) (frames : list (R * R)) :
  (1 <= channels)%nat ->
  forall (i0 : nat) (out : list R),
    ((i0 + length frames) * channels <= length out)%nat ->
    (Z.of_nat (length out) < 2 ^ 32)%Z ->
    exists out',
      write_interleaved channels i0 frames out = Some out'
      /\ length out' = length out
      /\ (forall j, (j < i0 * channels)%nat -> out' !! j = out !! j)
      /\ (forall j, ((i0 + length frames) * channels <= j)%nat ->
            out' !! j = out !! j)
      /\ forall i frame, frames !! i = Some frame ->
           out' !! ((i0 + i) * channels)%nat = Some (fst frame)
           /\ ((1 < channels)%nat ->
               out' !! ((i0 + i) * channels + 1)%nat = Some (snd frame))
           /\ forall k, (2 <= k < channels)%nat ->
                out' !! ((i0 + i) * channels + k)%nat
                = out !! ((i0 + i) * channels + k)%nat.
Proof.
  intros Hc. induction frames as [| [outL outR] frames IH];
    intros i0 out Hlen H32.
  - exists out. split; [reflexivity |]. split; [reflexivity |].
    split; [intros; reflexivity |]. split; [intros; reflexivity |].
    intros i frame Hi. rewrite lookup_nil in Hi. discriminate.
  - simpl length in Hlen.
    assert (Hsplit : ((i0 + S (length frames)) * channels
                      = i0 * channels + (channels + length frames * channels))%nat)
      by (rewrite Nat.mul_add_distr_r; simpl; reflexivity).
    assert (Hnext : ((S i0 + length frames) * channels
                     = i0 * channels + (channels + length frames * channels))%nat)
      by (rewrite Nat.mul_add_distr_r; simpl; lia).
    assert (HS : (S i0 * channels = channels + i0 * channels)%nat)
      by reflexivity.
    set (b := (i0 * channels)%nat) in *.
    assert (Hi0 : out_index i0 channels 0 = b).
    { rewrite out_index_small by lia. fold b. simpl. lia. }
    assert (Hi1 : out_index i0 channels 1 = (b + 1)%nat).
    { rewrite out_index_small; [reflexivity | lia |].
      fold b. destruct (decide (1 < channels)%nat); lia. }
    simpl write_interleaved. rewrite Hi0, Hi1.
    rewrite store_inside by lia. simpl.
    set (out1 := <[b := outL]> out).
    set (out2 := if decide (1 < channels)%nat
                 then <[(b + 1)%nat := outR]> out1 else out1).
    assert (Hstore2 :
      (if decide (1 < channels)%nat
       then store out1 (b + 1) outR else Some out1) = Some out2).
    { unfold out2. destruct (decide (1 < channels)%nat); [| reflexivity].
      apply store_inside. unfold out1. rewrite length_insert. lia. }
    rewrite Hstore2. simpl.
    assert (Hlen2 : length out2 = length out).
    { unfold out2, out1. destruct (decide (1 < channels)%nat);
        rewrite ?length_insert; reflexivity. }
    destruct (IH (S i0) out2) as (out' & Hw & Hl & Hbefore & Hafter & Hfr).
    { rewrite Hlen2, Hnext. lia. }
    { rewrite Hlen2. exact H32. }
    rewrite HS in Hbefore. rewrite Hnext in Hafter.
    assert (Hout2 : forall j, j <> b -> (j <> (b + 1)%nat \/ channels = 1%nat) ->
                      out2 !! j = out !! j).
    { intros j Hj0 Hj1. unfold out2, out1.
      destruct (decide (1 < channels)%nat).
      - rewrite !list_lookup_insert_ne by lia. reflexivity.
      - rewrite list_lookup_insert_ne by lia. reflexivity. }
    exists out'. split; [exact Hw |]. split; [lia |].
    split; [| split].
    + intros j Hj. rewrite Hbefore by lia. apply Hout2; lia.
    + intros j Hj. rewrite Hsplit in Hj. rewrite Hafter by lia.
      apply Hout2; lia.
    + intros i frame Hi. destruct i as [| i].
      * simpl in Hi. injection Hi as <-. simpl fst. simpl snd.
        rewrite Nat.add_0_r. fold b.
        split; [| split].
        -- rewrite Hbefore by lia. unfold out2, out1.
           destruct (decide (1 < channels)%nat).
           ++ rewrite list_lookup_insert_ne by lia.
              apply list_lookup_insert_eq. lia.
           ++ apply list_lookup_insert_eq. lia.
        -- intros Hc1. rewrite Hbefore by lia. unfold out2, out1.
           destruct (decide (1 < channels)%nat); [| lia].
           apply list_lookup_insert_eq. rewrite length_insert. lia.
        -- intros k Hk. rewrite Hbefore by lia. apply Hout2; lia.
      * simpl in Hi. destruct (Hfr i frame Hi) as (H0 & H1 & Hk).
        replace (i0 + S i)%nat with (S i0 + i)%nat by lia.
        split; [exact H0 |]. split; [exact H1 |].
        intros k Hk2. rewrite Hk by exact Hk2.
        assert (Hge : (channels + b <= (S i0 + i) * channels)%nat).
        { rewrite Nat.mul_add_distr_r. simpl. fold b. lia. }
        apply Hout2; lia.
Qed.

(** X14. Writing the frames of a pass into a device buffer of exactly
    [frames · channels] samples (below 2^32) succeeds and keeps its length.
    Slot 0 of frame [i] receives the left sample; slot 1 receives the right
    sample if the device has more than one channel, so a mono device gets
    the left sample only; any further channel of the frame is left as the
    device supplied it. *)
Theorem write_interleaved_layout (channels : nat) (frames : list (R * R))
    (out : list R) :
  (1 <= channels)%nat ->
  length out = (length frames * channels)%nat ->
  (Z.of_nat (length out) < 2 ^ 32)%Z ->
  exists out',
    write_interleaved channels 0 frames out = Some out'
    /\ length out' = length out
    /\ forall i frame, frames !! i = Some frame ->
         out' !! (i * channels)%nat = Some (fst frame)
         /\ ((1 < channels)%nat ->
             out' !! (i * channels + 1)%nat = Some (snd frame))
         /\ forall k, (2 <= k < channels)%nat ->
              out' !! (i * channels + k)%nat = out !! (i * channels + k)%nat.
Proof.
  intros Hc Hlen H32.
  destruct (write_interleaved_from channels frames Hc 0 out)
    as (out' & Hw & Hl & _ & _ & Hfr); [simpl; lia | exact H32 |].
  exists out'. split; [exact Hw |]. split; [exact Hl |].
  intros i frame Hi. exact (Hfr i frame Hi).
Qed.

Lemma write_interleaved_layout_witness :
  exists out',
    write_interleaved 3 0 [(1, 2); (3, 4)] [9; 9; 9; 9; 9; 9] = Some out'
    /\ out' !! 3%nat = Some 3 /\ out' !! 4%nat = Some 4
    /\ out' !! 5%nat = Some 9.
Proof.
  destruct (write_interleaved_layout 3 [(1, 2); (3, 4)] [9; 9; 9; 9; 9; 9])
    as (out' & Hw & _ & Hfr); [lia | reflexivity | simpl; lia |].
  exists out'. split; [exact Hw |].
  destruct (Hfr 1%nat (3, 4) eq_refl) as (H0 & H1 & Hk).
  split; [exact H0 |]. split; [apply H1; lia |].
  exact (Hk 2%nat ltac:(lia)).
Defined.

(** ** The render loop *)

(** X15. On 32-bit values the frame count is the difference
    [bufferFrames - padding] when the padding does not exceed the buffer
    size, and it is zero exactly when the two are equal; a padding above
    the buffer size wraps around to a count just below 2^32 instead of
    giving zero. *)
Theorem framesToWrite_wraps (dev : Device) (padding : Z) :
  (0 <= bufferFrames dev < 2 ^ 32)%Z -> (0 <= padding < 2 ^ 32)%Z ->
  ((padding <= bufferFrames dev)%Z ->
   framesToWrite dev padding = (bufferFrames dev - padding)%Z)
  /\ ((bufferFrames dev < padding)%Z ->
      framesToWrite dev padding
      = (2 ^ 32 - (padding - bufferFrames dev))%Z)
  /\ (framesToWrite dev padding = 0%Z <-> padding = bufferFrames dev).
Proof.
  intros Hb Hp. unfold framesToWrite.
  assert (Hle : (padding <= bufferFrames dev)%Z ->
                ((bufferFrames dev - padding) mod 2 ^ 32
                 = bufferFrames dev - padding)%Z)
    by (intros H; apply Z.mod_small; lia).
  assert (Hgt : (bufferFrames dev < padding)%Z ->
                ((bufferFrames dev - padding) mod 2 ^ 32
                 = 2 ^ 32 - (padding - bufferFrames dev))%Z).
  { intros H.
    replace (bufferFrames dev - padding)%Z
      with (2 ^ 32 - (padding - bufferFrames dev) + (-1) * 2 ^ 32)%Z by ring.
    rewrite Z_mod_plus_full. apply Z.mod_small. lia. }
  split; [exact Hle |]. split; [exact Hgt |].
  split.
  - intros Hz.
    destruct (Z_le_gt_dec padding (bufferFrames dev)) as [H | H].
    + rewrite Hle in Hz by exact H. lia.
    + rewrite Hgt in Hz by lia. lia.
  - intros ->. rewrite Z.sub_diag. reflexivity.
Qed.

Lemma framesToWrite_wraps_witness :
  framesToWrite (mkDevice 960 48000 2) 480 = 480%Z
  /\ framesToWrite (mkDevice 960 48000 2) 961 = (2 ^ 32 - 1)%Z.
Proof.
  destruct (framesToWrite_wraps (mkDevice 960 48000 2) 480) as (H1 & _);
    [simpl; lia | lia |].
  destruct (framesToWrite_wraps (mkDevice 960 48000 2) 961) as (_ & H2 & _);
    [simpl; lia | lia |].
  split; [apply H1; simpl; lia | apply H2; simpl; lia].
Defined.

Lemma idle_wake_body (dev : Device) (wk : Wake) (w : RenderState) :
  idle_wake dev wk -> loop_body dev wk w = Some (Continue, w, None).
Proof.
  intros [_ [Hwait | (padding & Hpad & Hz)]]; unfold loop_body.
  - destruct (wk_wait wk); [contradiction | reflexivity ..].
  - destruct (wk_wait wk); [| reflexivity ..].
    rewrite Hpad, Hz. reflexivity.
Qed.

(** X16. However many times the loop wakes without work (timeouts, failed
    waits, wakes with no free frame), it commits nothing, leaves the whole
    render state as it was and is still running. *)
Theorem idle_loop_changes_nothing (dev : Device) (wakes : list Wake)
    (w : RenderState) :
  Forall (idle_wake dev) wakes ->
  audio_loop dev wakes w = Some (Running, w, []).
Proof.
  intros Hall. induction Hall as [| wk wakes Hwk Hall IH].
  - reflexivity.
  - simpl. destruct Hwk as [Hrun Hidle]. rewrite Hrun.
    rewrite (idle_wake_body dev wk w (conj Hrun Hidle)). simpl.
    rewrite IH. reflexivity.
Qed.

Lemma idle_loop_changes_nothing_witness :
  let dev := mkDevice 960 48000 2 in
  let w := mkRender (init_delay 48000 default_state) initial_seed in
  let timeout := mkWake true WAIT_TIMEOUT None None
                        (fun _ => default_params) true in
  let full := mkWake true WAIT_OBJECT_0 (Some 960%Z) None
                     (fun _ => default_params) true in
  audio_loop dev [timeout; full; timeout] w = Some (Running, w, []).
Proof.
  intros dev w timeout full.
  apply idle_loop_changes_nothing.
  assert (Ht : idle_wake dev timeout)
    by (split; [reflexivity | left; discriminate]).
  assert (Hf : idle_wake dev full)
    by (split; [reflexivity | right; exists 960%Z; split; reflexivity]).
  exact (Forall_cons_2 _ _ _ Ht
           (Forall_cons_2 _ _ _ Hf
              (Forall_cons_2 _ _ _ Ht (Forall_nil_2 _)))).
Defined.

(** X17. The loop is over once it has stopped.  If the wakes so far leave
    the loop stopped (the flag was found cleared, or a device call failed),
    any further wakes change neither the state nor what was committed;
    if they leave it running, the loop goes on from the state reached and
    appends what it commits. *)
Theorem audio_loop_app (dev : Device) (wakes1 wakes2 : list Wake)
    (w w1 : RenderState) (st : LoopState) (outs1 : list (list R)) :
  audio_loop dev wakes1 w = Some (st, w1, outs1) ->
  audio_loop dev (wakes1 ++ wakes2) w
  = match st with
    | Stopped => Some (Stopped, w1, outs1)
    | Running =>
        '(st2, w2, outs2) ← audio_loop dev wakes2 w1;
        Some (st2, w2, outs1 ++ outs2)
    end.
Proof.
  revert w st w1 outs1.
  induction wakes1 as [| wk wakes1 IH]; intros w st w1 outs1 H1.
  - simpl in H1. injection H1 as <- <- <-. simpl.
    destruct (audio_loop dev wakes2 w) as [[[st2 w2] outs2] |]; reflexivity.
  - simpl in H1. simpl app. simpl audio_loop.
    destruct (wk_running wk).
    + destruct (loop_body dev wk w) as [[[c wa] committed] |];
        [| discriminate].
      simpl in H1 |- *.
      destruct c.
      * destruct (audio_loop dev wakes1 wa) as [[[sta wb] outsa] |] eqn:Ha;
          [| discriminate].
        simpl in H1. injection H1 as <- <- <-.
        rewrite (IH wa sta wb outsa Ha).
        destruct sta.
        -- destruct (audio_loop dev wakes2 wb) as [[[st2 w2] outs2] |];
             simpl; [| reflexivity].
           rewrite app_assoc. reflexivity.
        -- reflexivity.
      * injection H1 as <- <- <-. reflexivity.
    + injection H1 as <- <- <-. reflexivity.
Qed.

Lemma audio_loop_app_witness :
  let dev := mkDevice 960 48000 2 in
  let w := mkRender (init_delay 48000 default_state) initial_seed in
  let stop := mkWake false WAIT_OBJECT_0 (Some 0%Z) None
                     (fun _ => default_params) true in
  let more := mkWake true WAIT_OBJECT_0 (Some 0%Z) (Some [])
                     (fun _ => default_params) true in
  audio_loop dev ([stop] ++ [more; more]) w = Some (Stopped, w, []).
Proof.
  intros dev w stop more.
  exact (audio_loop_app dev [stop] [more; more] w w Stopped [] eq_refl).
Defined.

(** One pass of the loop has a result when the delay lines are in order and
    the device hands out a buffer of the size asked for. *)
Lemma loop_body_defined (dev : Device) (wk : Wake) (w : RenderState)
    (n : nat) :
  delay_inv n (gSynth w) -> (1 <= nChannels dev)%nat -> wake_ok dev wk ->
  exists c w' committed,
    loop_body dev wk w = Some (c, w', committed)
    /\ delay_inv n (gSynth w').
Proof.
  intros Hinv Hc Hok. unfold loop_body.
  destruct (wk_wait wk); [| eexists _, _, _; split; [reflexivity | exact Hinv] ..].
  destruct (wk_padding wk) as [padding |] eqn:Hpad;
    [| eexists _, _, _; split; [reflexivity | exact Hinv]].
  destruct (framesToWrite dev padding =? 0)%Z;
    [eexists _, _, _; split; [reflexivity | exact Hinv] |].
  destruct (wk_buffer wk) as [out |] eqn:Hbuf;
    [| eexists _, _, _; split; [reflexivity | exact Hinv]].
  destruct (Hok padding out Hpad Hbuf) as [Hlen H32].
  destruct (render_frames_defined (sample_dt dev) n
              (map (wk_params wk)
                 (seq 0 (Z.to_nat (framesToWrite dev padding)))) w Hinv)
    as (w' & frames & Hrun & Hfl & Hinv').
  rewrite length_map, length_seq in Hfl.
  destruct (write_interleaved_from (nChannels dev) frames Hc 0 out)
    as (out' & Hw & _); [rewrite Hfl, Hlen; simpl; lia | exact H32 |].
  rewrite Hrun. simpl. rewrite Hw. simpl.
  destruct (wk_release wk);
    eexists _, _, _; (split; [reflexivity | exact Hinv']).
Qed.

Lemma audio_loop_defined (dev : Device) (wakes : list Wake) (n : nat) :
  (1 <= nChannels dev)%nat -> Forall (wake_ok dev) wakes ->
  forall w, delay_inv n (gSynth w) ->
  exists st w' outs,
    audio_loop dev wakes w = Some (st, w', outs)
    /\ delay_inv n (gSynth w')
    /\ (length outs <= length wakes)%nat.
Proof.
  intros Hc Hall. induction Hall as [| wk wakes Hwk Hall IH]; intros w Hinv.
  - exists Running, w, []. split; [reflexivity | split; [exact Hinv | simpl; lia]].
  - simpl audio_loop. destruct (wk_running wk).
    + destruct (loop_body_defined dev wk w n Hinv Hc Hwk)
        as (c & w1 & committed & Hbody & Hinv1).
      rewrite Hbody. simpl.
      assert (Hem : (length (match committed with
                             | Some o => [o] | None => [] end) <= 1)%nat)
        by (destruct committed; simpl; lia).
      destruct c.
      * destruct (IH w1 Hinv1) as (st & w2 & outs & Hloop & Hinv2 & Hn).
        rewrite Hloop. simpl. eexists _, _, _.
        split; [reflexivity |]. split; [exact Hinv2 |].
        rewrite length_app. simpl. lia.
      * eexists _, _, _. split; [reflexivity |]. split; [exact Hinv1 |].
        simpl. lia.
    + eexists _, _, _. split; [reflexivity |]. split; [exact Hinv |].
      simpl. lia.
Qed.

(** X18. The render thread never reads or writes outside its vectors or
    the device buffer.  If the delay lines get at least one cell, the
    device has at least one channel and every buffer it hands out has the
    size asked for, then for every sequence of wakes, whatever the device
    answers and the controls are, [AudioThreadMain] runs to a result, the
    cursor ends inside delay lines of unchanged length, and it commits at
    most one buffer per wake. *)
Theorem render_thread_memory_safe (dev : Device) (start_ok : bool)
    (wakes : list Wake) (w : RenderState) :
  (1 <= delaySamples (nSamplesPerSec dev))%nat ->
  (1 <= nChannels dev)%nat ->
  Forall (wake_ok dev) wakes ->
  exists st w' outs,
    AudioThreadMain dev start_ok wakes w = Some (st, w', outs)
    /\ delay_inv (delaySamples (nSamplesPerSec dev)) (gSynth w')
    /\ (length outs <= length wakes)%nat.
Proof.
  intros Hn Hc Hall. unfold AudioThreadMain.
  assert (Hinv : delay_inv (delaySamples (nSamplesPerSec dev))
                   (init_delay (nSamplesPerSec dev) (gSynth w)))
    by (apply init_delay_inv; exact Hn).
  destruct start_ok.
  - apply (audio_loop_defined dev wakes _ Hc Hall). exact Hinv.
  - eexists _, _, _. split; [reflexivity |]. split; [exact Hinv |].
    simpl. lia.
Qed.

Lemma render_thread_memory_safe_witness :
  let dev := mkDevice 960 48000 2 in
  let w := mkRender default_state initial_seed in
  let wk := mkWake true WAIT_OBJECT_0 (Some 958%Z) (Some [0; 0; 0; 0])
                   (fun _ => mkParams 440 1 3 false 1) true in
  exists st w' outs,
    AudioThreadMain dev true [wk; wk] w = Some (st, w', outs)
    /\ (length outs <= 2)%nat.
Proof.
  intros dev w wk.
  assert (Hok : wake_ok dev wk).
  { intros padding out Hp Hb. injection Hp as <-. injection Hb as <-.
    split; [reflexivity | simpl; lia]. }
  destruct (render_thread_memory_safe dev true [wk; wk] w)
    as (st & w' & outs & Hrun & _ & Hlen).
  - apply delaySamples_48k.
  - simpl. lia.
  - exact (Forall_cons_2 _ _ _ Hok (Forall_cons_2 _ _ _ Hok (Forall_nil_2 _))).
  - exists st, w', outs. split; [exact Hrun | exact Hlen].
Defined.

(** ** Device setup and teardown *)

Module WasapiFacts.
Import Wasapi.

Lemma shutdown_released (g : WasapiContext) :
  released (fst (ShutdownWASAPI g))
  /\ running (fst (ShutdownWASAPI g)) = false
  /\ bufferFrames (fst (ShutdownWASAPI g)) = bufferFrames g.
Proof.
  destruct g as [e d c r ev f n t av run co].
  destruct e, d, c, r, ev, f, t, co; repeat split.
Qed.

Lemma shutdown_hAvrt (g : WasapiContext) :
  hAvrt (fst (ShutdownWASAPI g)) = hAvrt g.
Proof.
  destruct g as [e d c r ev f n t av run co].
  destruct e, d, c, r, ev, f, t, co; reflexivity.
Qed.

Lemma shutdown_calls (g : WasapiContext) :
  snd (ShutdownWASAPI g) = List.filter (held g) shutdown_order.
Proof.
  destruct g as [e d c r ev f n t av run co].
  destruct e, d, c, r, ev, f, t, co; reflexivity.
Qed.

Lemma shutdown_twice (g : WasapiContext) :
  ShutdownWASAPI (fst (ShutdownWASAPI g)) = (fst (ShutdownWASAPI g), []).
Proof.
  destruct g as [e d c r ev f n t av run co].
  destruct e, d, c, r, ev, f, t, co; reflexivity.
Qed.

End WasapiFacts.

(** X19. [ShutdownWASAPI] releases everything [InitWASAPI] acquires, once,
    in a fixed order, and may be called again.  After it the four
    interface pointers, the event handle, the format pointer and the
    thread handle are null, COM is uninitialized and the running flag is
    clear; the buffer size and the handle [hAvrt], which only the render
    thread clears, are left as they were.  The calls it made are exactly
    those of the sequence wait for the thread, close its handle, close the
    event, release the render client, the audio client, the device and
    the enumerator, free the format, uninitialize COM, that guard
    something held; a second shutdown makes no call and changes nothing. *)
Theorem shutdown_releases_everything (g : Wasapi.WasapiContext) :
  let g' := fst (Wasapi.ShutdownWASAPI g) in
  Wasapi.released g'
  /\ Wasapi.running g' = false
  /\ Wasapi.bufferFrames g' = Wasapi.bufferFrames g
  /\ Wasapi.hAvrt g' = Wasapi.hAvrt g
  /\ snd (Wasapi.ShutdownWASAPI g)
     = List.filter (Wasapi.held g) Wasapi.shutdown_order
  /\ Wasapi.ShutdownWASAPI g' = (g', []).
Proof.
  intros g'.
  destruct (WasapiFacts.shutdown_released g) as (H1 & H2 & H3).
  split; [exact H1 |]. split; [exact H2 |]. split; [exact H3 |].
  split; [apply WasapiFacts.shutdown_hAvrt |].
  split; [apply WasapiFacts.shutdown_calls | apply WasapiFacts.shutdown_twice].
Qed.

(** With every call answered favourably, [InitWASAPI] returns true, holds
    everything and has made the setup calls in order. *)
Lemma init_success (a : Wasapi.InitAnswers) (g : Wasapi.WasapiContext) :
  Wasapi.released g -> Wasapi.all_succeed a ->
  fst (fst (Wasapi.InitWASAPI a g)) = true
  /\ Wasapi.ready (snd (fst (Wasapi.InitWASAPI a g)))
  /\ snd (Wasapi.InitWASAPI a g) = Wasapi.init_order.
Proof.
  intros Hrel Hall.
  destruct g as [e d c r ev f n t av run co].
  destruct Hrel as (He & Hd & Hc & Hr & Hev & Hf & Ht & Hco).
  simpl in He, Hd, Hc, Hr, Hev, Hf, Ht, Hco. subst.
  destruct a as [a1 a2 a3 a4 a5 a6 a7 a8 a9 a10 a11 a12 a13].
  destruct Hall as (H1 & H2 & H3 & H4 & H5 & H6 & (n7 & H7 & Hnz) & H8 & H9
                    & H10 & H11 & H12 & H13).
  simpl in H1, H2, H3, H4, H5, H6, H7, H8, H9, H10, H11, H12, H13. subst.
  assert (Hn7 : (n7 =? 0)%Z = false) by (apply Z.eqb_neq; exact Hnz).
  unfold Wasapi.InitWASAPI. cbn. rewrite Hn7. cbn.
  split; [reflexivity |]. split; [| reflexivity].
  unfold Wasapi.ready. cbn. repeat split. exact Hnz.
Qed.

(** X20. [InitWASAPI] is all or nothing.  Started with nothing held, it
    returns true exactly when every one of its thirteen calls is answered
    favourably (a non-null format, render client and buffer, a non-zero
    buffer size); it then holds every interface and handle, has made its
    calls in order and none of teardown, and has not touched the running
    flag.  Whenever it returns false, nothing is left held: whatever it had
    acquired has been released again. *)
Theorem init_all_or_nothing (a : Wasapi.InitAnswers)
    (g : Wasapi.WasapiContext) :
  Wasapi.released g ->
  let ok := fst (fst (Wasapi.InitWASAPI a g)) in
  let g' := snd (fst (Wasapi.InitWASAPI a g)) in
  let calls := snd (Wasapi.InitWASAPI a g) in
  (ok = true <-> Wasapi.all_succeed a)
  /\ (ok = true ->
      Wasapi.ready g' /\ calls = Wasapi.init_order
      /\ Wasapi.running g' = Wasapi.running g)
  /\ (ok = false -> Wasapi.released g').
Proof.
  intros Hrel.
  destruct g as [e d c r ev f n t av run co].
  destruct Hrel as (He & Hd & Hc & Hr & Hev & Hf & Ht & Hco).
  simpl in He, Hd, Hc, Hr, Hev, Hf, Ht, Hco. subst.
  destruct a as [a1 a2 a3 a4 a5 a6 a7 a8 a9 a10 a11 a12 a13].
  assert (Hfail : forall (gx : Wasapi.WasapiContext) (cx : list Wasapi.ApiCall),
            ~ Wasapi.all_succeed
                (Wasapi.mkAnswers a1 a2 a3 a4 a5 a6 a7 a8 a9 a10 a11 a12 a13) ->
            Wasapi.released gx ->
            (false = true <->
             Wasapi.all_succeed
               (Wasapi.mkAnswers a1 a2 a3 a4 a5 a6 a7 a8 a9 a10 a11 a12 a13))
            /\ (false = true ->
                Wasapi.ready gx /\ cx = Wasapi.init_order
                /\ Wasapi.running gx = run)
            /\ (false = false -> Wasapi.released gx)).
  { intros gx cx Hno Hrel.
    split; [split; [discriminate | intros H; destruct (Hno H)] |].
    split; [discriminate | intros _; exact Hrel]. }
  unfold Wasapi.all_succeed in *. cbn in Hfail.
  destruct a1;
    [| apply Hfail; [intros H; decompose record H; discriminate
                    | repeat split]].
  destruct a2;
    [| apply Hfail; [intros H; decompose record H; discriminate
                    | repeat split]].
  destruct a3;
    [| apply Hfail; [intros H; decompose record H; discriminate
                    | repeat split]].
  destruct a4;
    [| apply Hfail; [intros H; decompose record H; discriminate
                    | repeat split]].
  destruct a5;
    [apply Hfail; [intros H; decompose record H; discriminate | repeat split]
    |apply Hfail; [intros H; decompose record H; discriminate | repeat split]
    |].
  destruct a6;
    [| apply Hfail; [intros H; decompose record H; discriminate
                    | repeat split]].
  destruct a7 as [n7 |];
    [| apply Hfail; [intros H; decompose record H; discriminate
                    | repeat split]].
  destruct (Z.eqb_spec n7 0) as [Hz | Hnz].
  { cbn. subst n7. cbn.
    apply Hfail; [| repeat split].
    intros H; decompose record H. congruence. }
  assert (Hn7 : (n7 =? 0)%Z = false) by (apply Z.eqb_neq; exact Hnz).
  destruct a8;
    [| cbn; rewrite Hn7; apply Hfail;
       [intros H; decompose record H; discriminate | repeat split]].
  destruct a9;
    [| cbn; rewrite Hn7; apply Hfail;
       [intros H; decompose record H; discriminate | repeat split]].
  destruct a10;
    [cbn; rewrite Hn7; apply Hfail;
       [intros H; decompose record H; discriminate | repeat split]
    |cbn; rewrite Hn7; apply Hfail;
       [intros H; decompose record H; discriminate | repeat split]
    |].
  destruct a11;
    [cbn; rewrite Hn7; apply Hfail;
       [intros H; decompose record H; discriminate | repeat split]
    |cbn; rewrite Hn7; apply Hfail;
       [intros H; decompose record H; discriminate | repeat split]
    |].
  destruct a12;
    [| cbn; rewrite Hn7; apply Hfail;
       [intros H; decompose record H; discriminate | repeat split]].
  destruct a13;
    [| cbn; rewrite Hn7; apply Hfail;
       [intros H; decompose record H; discriminate | repeat split]].
  cbn. rewrite Hn7. cbn.
  split.
  - split; [intros _ | reflexivity].
    repeat split; try reflexivity. exists n7. split; [reflexivity | exact Hnz].
  - split; [| discriminate].
    intros _. split; [| split; reflexivity].
    unfold Wasapi.ready. cbn. repeat split. exact Hnz.
Qed.

Lemma init_all_or_nothing_witness :
  let a := Wasapi.mkAnswers true true true true Wasapi.OkPtr true (Some 960%Z)
                            true true Wasapi.OkNull Wasapi.OkPtr true true in
  Wasapi.released Wasapi.initial_context
  /\ fst (fst (Wasapi.InitWASAPI a Wasapi.initial_context)) = false
  /\ Wasapi.released (snd (fst (Wasapi.InitWASAPI a Wasapi.initial_context))).
Proof.
  intros a.
  assert (Hrel : Wasapi.released Wasapi.initial_context) by (repeat split).
  destruct (init_all_or_nothing a Wasapi.initial_context Hrel)
    as (_ & _ & Hfalse).
  split; [exact Hrel |]. split; [reflexivity |].
  apply Hfalse. reflexivity.
Defined.

(** X21. Setup and teardown compose: after a successful [InitWASAPI] from
    nothing held, [ShutdownWASAPI] makes every call of the teardown
    sequence, each once and in order, the wait for the render thread first,
    and leaves nothing held. *)
Theorem setup_teardown_round_trip (a : Wasapi.InitAnswers)
    (g : Wasapi.WasapiContext) :
  Wasapi.released g -> Wasapi.all_succeed a ->
  let g' := snd (fst (Wasapi.InitWASAPI a g)) in
  fst (fst (Wasapi.InitWASAPI a g)) = true
  /\ snd (Wasapi.ShutdownWASAPI g') = Wasapi.shutdown_order
  /\ Wasapi.released (fst (Wasapi.ShutdownWASAPI g')).
Proof.
  intros Hrel Hall g'.
  destruct (init_success a g Hrel Hall)
    as (Hok & (He & Hd & Hc & Hr & Hev & Hf & Ht & Hco & _) & _).
  fold g' in He, Hd, Hc, Hr, Hev, Hf, Ht, Hco.
  split; [exact Hok |]. split.
  - rewrite WasapiFacts.shutdown_calls. unfold Wasapi.shutdown_order.
    simpl. rewrite He, Hd, Hc, Hr, Hev, Hf, Ht, Hco. reflexivity.
  - apply WasapiFacts.shutdown_released.
Qed.

Lemma setup_teardown_round_trip_witness :
  let a := Wasapi.mkAnswers true true true true Wasapi.OkPtr true (Some 960%Z)
                            true true Wasapi.OkPtr Wasapi.OkPtr true true in
  let g' := snd (fst (Wasapi.InitWASAPI a Wasapi.initial_context)) in
  Wasapi.all_succeed a
  /\ snd (Wasapi.ShutdownWASAPI g') = Wasapi.shutdown_order.
Proof.
  intros a g'.
  assert (Hrel : Wasapi.released Wasapi.initial_context) by (repeat split).
  assert (Hall : Wasapi.all_succeed a).
  { unfold Wasapi.all_succeed. simpl. repeat split; try reflexivity.
    exists 960%Z. split; [reflexivity | discriminate]. }
  destruct (setup_teardown_round_trip a Wasapi.initial_context Hrel Hall)
    as (_ & Hcalls & _).
  exact (conj Hall Hcalls).
Defined.

(** ** The window procedure *)

(** X22. The space bar toggles mute and nothing else, so pressing it twice
    restores the shared cells exactly. *)
Theorem space_toggles_mute (g : Shared) :
  let g1 := WndProc (WM_KEYDOWN VK_SPACE) g in
  mute (gParams g1) = negb (mute (gParams g))
  /\ targetHz (gParams g1) = targetHz (gParams g)
  /\ targetGain (gParams g1) = targetGain (gParams g)
  /\ mode (gParams g1) = mode (gParams g)
  /\ vibratoDepth (gParams g1) = vibratoDepth (gParams g)
  /\ running g1 = running g
  /\ WndProc (WM_KEYDOWN VK_SPACE) g1 = g.
Proof.
  destruct g as [[hz gain m mu vd] run]. cbv zeta.
  repeat split. simpl. rewrite negb_involutive. reflexivity.
Qed.

Lemma WndProc_running (msg : Msg) (g : Shared) :
  running (WndProc msg g)
  = running g
    && match msg with
       | WM_DESTROY => false
       | WM_KEYDOWN wParam => negb (wParam =? VK_ESCAPE)%Z
       | _ => true
       end.
Proof.
  destruct msg as [| x y rc shift | wParam |]; simpl.
  - rewrite andb_false_r. reflexivity.
  - rewrite andb_true_r. reflexivity.
  - destruct (Z.eqb_spec wParam 49) as [-> | _]; [simpl; apply eq_sym, andb_true_r |].
    destruct (Z.eqb_spec wParam 50) as [-> | _]; [simpl; apply eq_sym, andb_true_r |].
    destruct (Z.eqb_spec wParam 51) as [-> | _]; [simpl; apply eq_sym, andb_true_r |].
    destruct (Z.eqb_spec wParam 52) as [-> | _]; [simpl; apply eq_sym, andb_true_r |].
    destruct (Z.eqb_spec wParam VK_SPACE) as [-> | _];
      [simpl; apply eq_sym, andb_true_r |].
    destruct (wParam =? VK_ESCAPE)%Z; simpl;
      [rewrite andb_false_r | rewrite andb_true_r]; reflexivity.
  - rewrite andb_true_r. reflexivity.
Qed.

(** X23. The window procedure can only clear the running flag: after any
    sequence of messages the flag is set exactly when it was set before
    and the sequence holds neither [WM_DESTROY] nor an Escape key press.
    No message sets it again. *)
Theorem running_flag_only_cleared (msgs : list Msg) (g : Shared) :
  running (message_pump msgs g) = true
  <-> running g = true
      /\ Forall (fun m => m <> WM_DESTROY /\ m <> WM_KEYDOWN VK_ESCAPE) msgs.
Proof.
  unfold message_pump. revert g.
  induction msgs as [| m msgs IH]; intros g; simpl.
  - split; [intros H; split; [exact H | constructor] | intros [H _]; exact H].
  - rewrite IH, WndProc_running. split.
    + intros [Hr Hall]. apply andb_true_iff in Hr as [Hr Hm].
      split; [exact Hr |]. constructor; [| exact Hall].
      destruct m as [| x y rc shift | wParam |]; try discriminate.
      * split; discriminate.
      * split; [discriminate |]. intros E. injection E as ->.
        discriminate.
      * split; discriminate.
    + intros [Hr Hall]. inversion Hall as [| ? ? [Hm1 Hm2] Hall']; subst.
      split; [| exact Hall'].
      rewrite Hr. simpl.
      destruct m as [| x y rc shift | wParam |]; try reflexivity.
      * contradiction.
      * destruct (Z.eqb_spec wParam VK_ESCAPE) as [-> | _];
          [contradiction | reflexivity].
Qed.

(** X24. Keys and mouse act on disjoint cells.  A key press never changes
    the frequency target, the gain target or the vibrato depth; a mouse
    move never changes the mode, the mute flag or the running flag and sets
    the depth to 1 with Shift and to 0 without.  The keys '1' to '4' store
    the modes 1 to 4, and a key that is none of '1'..'4', Space and Escape
    changes nothing at all. *)
Theorem keys_and_mouse_are_separate (g : Shared) (wParam x y : Z)
    (rc : RECT) (shift : bool) :
  let k := WndProc (WM_KEYDOWN wParam) g in
  let m := WndProc (WM_MOUSEMOVE x y rc shift) g in
  (targetHz (gParams k) = targetHz (gParams g)
   /\ targetGain (gParams k) = targetGain (gParams g)
   /\ vibratoDepth (gParams k) = vibratoDepth (gParams g))
  /\ (mode (gParams m) = mode (gParams g)
      /\ mute (gParams m) = mute (gParams g)
      /\ running m = running g
      /\ vibratoDepth (gParams m) = if shift then 1 else 0)
  /\ ((49 <= wParam <= 52)%Z -> mode (gParams k) = (wParam - 48)%Z)
  /\ (~ (49 <= wParam <= 52)%Z -> wParam <> VK_SPACE ->
      wParam <> VK_ESCAPE -> k = g).
Proof.
  destruct g as [[hz gain md mu vd] run]. cbv zeta. simpl.
  split; [| split; [| split]].
  - repeat (destruct (_ =? _)%Z; [repeat split |]). repeat split.
  - repeat split.
  - intros Hd.
    assert (Hc : wParam = 49%Z \/ wParam = 50%Z \/ wParam = 51%Z
                 \/ wParam = 52%Z) by lia.
    destruct Hc as [-> | [-> | [-> | ->]]]; reflexivity.
  - intros Hd Hs He.
    destruct (Z.eqb_spec wParam 49); [lia |].
    destruct (Z.eqb_spec wParam 50); [lia |].
    destruct (Z.eqb_spec wParam 51); [lia |].
    destruct (Z.eqb_spec wParam 52); [lia |].
    destruct (Z.eqb_spec wParam VK_SPACE); [contradiction |].
    destruct (Z.eqb_spec wParam VK_ESCAPE); [contradiction |].
    reflexivity.
Qed.

(** ** Settling time of the smoothers *)

Lemma pow_le_from (x : R) (m n : nat) :
  0 <= x <= 1 -> (m <= n)%nat -> x ^ n <= x ^ m.
Proof.
  intros Hx Hmn. replace n with (m + (n - m))%nat by lia.
  rewrite pow_add.
  assert (H1 : 0 <= x ^ m) by (apply pow_le; lra).
  assert (H2 : 0 <= x ^ (n - m) <= 1).
  { split; [apply pow_le; lra |].
    rewrite <- (pow1 (n - m)). apply pow_incr. lra. }
  nra.
Qed.

(** X25. After 90 samples with unchanged targets (1.9 ms at 48 kHz) both
    smoothers have all but settled.  With the targets and the smoothed
    values in their ranges, the distance of the smoothed frequency to its
    target is at most 1 % of what it was plus 0.002 Hz, and that of the
    smoothed gain at most 1 % of what it was plus 0.000001, the additive
    terms covering the few units in the last place at which rounding can
    hold the smoother short of its target. *)
Theorem smoothers_settle (dt : R) (ps : list SynthParams)
    (w w' : RenderState) (frames : list (R * R)) (hz gain : R) :
  kMinHz <= hz <= kMaxHz -> 0 <= gain <= 1 ->
  kMinHz <= smoothHz (gSynth w) <= kMaxHz ->
  0 <= smoothGain (gSynth w) <= 1 ->
  Forall (fun p => targetHz p = hz) ps ->
  Forall (fun p => targetGain p = gain) ps ->
  (90 <= length ps)%nat ->
  render_frames dt ps w = Some (w', frames) ->
  Rabs (hz - smoothHz (gSynth w'))
  <= 0.01 * Rabs (hz - smoothHz (gSynth w)) + 0.002
  /\ Rabs (gain - smoothGain (gSynth w'))
     <= 0.01 * Rabs (gain - smoothGain (gSynth w)) + 0.000001.
Proof.
  intros _ _ _ _ Hhz Hgain Hlen Hrun.
  destruct (render_frames_smoothing dt ps w w' frames Hrun) as [HG HH].
  rewrite HG, HH.
  rewrite (foldl_constant_target gain gainSmoothCoeff ps targetGain _ Hgain).
  rewrite (foldl_constant_target hz hzSmoothCoeff ps targetHz _ Hhz).
  destruct smoothing_coefficients as [Hkh Hkg].
  rewrite (smooth_run_distance hz hzSmoothCoeff Hkh).
  rewrite (smooth_run_distance gain gainSmoothCoeff Hkg).
  assert (Hp1 : (1 - hzSmoothCoeff) ^ length ps <= 0.01).
  { apply Rle_trans with ((1 - hzSmoothCoeff) ^ 90).
    - apply pow_le_from; [lra | exact Hlen].
    - unfold hzSmoothCoeff. lra. }
  assert (Hp2 : (1 - gainSmoothCoeff) ^ length ps <= 0.01).
  { apply Rle_trans with ((1 - gainSmoothCoeff) ^ 90).
    - apply pow_le_from; [lra | exact Hlen].
    - unfold gainSmoothCoeff. lra. }
  pose proof (Rabs_pos (hz - smoothHz (gSynth w))) as Ha1.
  pose proof (Rabs_pos (gain - smoothGain (gSynth w))) as Ha2.
  split.
  - apply Rle_trans with (0.01 * Rabs (hz - smoothHz (gSynth w))); [| lra].
    apply Rmult_le_compat_r; assumption.
  - apply Rle_trans with (0.01 * Rabs (gain - smoothGain (gSynth w)));
      [| lra].
    apply Rmult_le_compat_r; assumption.
Qed.

Lemma smoothers_settle_witness :
  let w0 := mkRender (init_delay 48000 default_state) initial_seed in
  let ps := replicate 90 (mkParams 880 1 1 false 0) in
  exists w' frames,
    render_frames (1 / 48000) ps w0 = Some (w', frames)
    /\ Rabs (880 - smoothHz (gSynth w')) <= 0.01 * Rabs (880 - 440) + 0.002.
Proof.
  intros w0 ps.
  destruct (render_frames_defined (1 / 48000) (delaySamples 48000) ps w0
              (init_delay_inv 48000 default_state delaySamples_48k))
    as (w' & frames & Hrun & _).
  exists w', frames. split; [exact Hrun |].
  refine (proj1 (smoothers_settle (1 / 48000) ps w0 w' frames 880 1
                   _ _ _ _ _ _ _ Hrun)).
  - unfold kMinHz, kMaxHz. lra.
  - lra.
  - unfold kMinHz, kMaxHz. simpl. lra.
  - simpl. lra.
  - apply Forall_replicate. reflexivity.
  - apply Forall_replicate. reflexivity.
  - unfold ps. rewrite length_replicate. lia.
Defined.

(** ** Edges of the phase wrap *)

(** X26. The wrap is one subtraction on one side.  An increment of two
    turns or more leaves the phase at or above [kTwoPi], and a sum that
    falls below zero is kept as it is: only increments in [0, kTwoPi) are
    wrapped back into range. *)
Theorem advance_phase_edges (p inc : R) :
  phase_in_range p ->
  (2 * kTwoPi <= inc -> kTwoPi <= advance_phase p inc)
  /\ (p + inc < 0 -> advance_phase p inc = p + inc)
  /\ (phase_in_range inc ->
      advance_phase p inc = p + inc
      \/ advance_phase p inc = p + inc - kTwoPi).
Proof.
  unfold phase_in_range, advance_phase. cbv zeta. intros Hp.
  pose proof kTwoPi_bounds as [Hk _].
  split; [| split].
  - intros H. destruct (Rge_dec (p + inc) kTwoPi); lra.
  - intros H. destruct (Rge_dec (p + inc) kTwoPi); [lra | reflexivity].
  - intros H. destruct (Rge_dec (p + inc) kTwoPi); [right | left];
      reflexivity.
Qed.

Lemma advance_phase_edges_witness :
  phase_in_range 1 /\ kTwoPi <= advance_phase 1 (2 * kTwoPi).
Proof.
  assert (H : phase_in_range 1) by (unfold phase_in_range, kTwoPi; lra).
  destruct (advance_phase_edges 1 (2 * kTwoPi) H) as (Hbig & _).
  split; [exact H | apply Hbig; lra].
Defined.

(** ** Noise consumption *)

Lemma mode_engine_seed (mode : Z) (a b : R) (seed : Z) :
  snd (mode_engine mode a b seed)
  = if (mode =? 3)%Z then lcg_next seed else seed.
Proof.
  destruct (Z.eq_dec mode 1%Z) as [-> | E1]; [reflexivity |].
  destruct (Z.eq_dec mode 2%Z) as [-> | E2]; [reflexivity |].
  destruct (Z.eq_dec mode 3%Z) as [-> | E3]; [reflexivity |].
  destruct (Z.eq_dec mode 4%Z) as [-> | E4]; [reflexivity |].
  rewrite mode_engine_default by assumption.
  apply Z.eqb_neq in E3. rewrite E3. reflexivity.
Qed.

(** X27. The noise generator advances exactly once per sample rendered in
    mode 3 and at no other time: after a run its seed is the initial seed
    stepped as many times as the run has mode-3 samples. *)
Theorem noise_advances_once_per_mode3_sample (dt : R)
    (ps : list SynthParams) (w w' : RenderState) (frames : list (R * R)) :
  render_frames dt ps w = Some (w', frames) ->
  noise_seed w'
  = Nat.iter (length (List.filter (fun p => (mode p =? 3)%Z) ps))
             lcg_next (noise_seed w).
Proof.
  revert w frames. induction ps as [| p ps IH]; intros w frames Hrun.
  - simpl in Hrun. injection Hrun as <- _. reflexivity.
  - destruct (render_frames_cons_inv _ _ _ _ _ _ Hrun)
      as (w1 & frame & frames' & Hstep & Hrun' & _).
    rewrite (IH w1 frames' Hrun').
    destruct (sample_step_stores dt p w w1 frame Hstep)
      as (_ & _ & _ & _ & _ & Hseed).
    pose proof (voice_sample dt p (gSynth w) (noise_seed w)) as Hs.
    apply (f_equal snd) in Hs. simpl in Hs.
    rewrite mode_engine_seed in Hs. rewrite Hseed, Hs.
    simpl List.filter. destruct (mode p =? 3)%Z.
    + simpl length. rewrite Nat.iter_succ_r. reflexivity.
    + reflexivity.
Qed.

Lemma noise_advances_once_per_mode3_sample_witness :
  let w0 := mkRender (init_delay 48000 default_state) initial_seed in
  let ps := [mkParams 440 1 3 false 0; mkParams 440 1 1 false 0;
             mkParams 440 1 3 true 0] in
  exists w' frames,
    render_frames (1 / 48000) ps w0 = Some (w', frames)
    /\ noise_seed w' = lcg_next (lcg_next initial_seed).
Proof.
  intros w0 ps.
  destruct (render_frames_defined (1 / 48000) (delaySamples 48000) ps w0
              (init_delay_inv 48000 default_state delaySamples_48k))
    as (w' & frames & Hrun & _).
  exists w', frames. split; [exact Hrun |].
  exact (noise_advances_once_per_mode3_sample (1 / 48000) ps w0 w' frames
           Hrun).
Defined.
